(** * config_file: the TOML parser adapter

    A shallow embedding of [config_file/parsers/toml_parser.py]
    (class [TomlParser]) and of the helpers it imports, followed by the
    properties of [parse], [get], [set], [delete], [stringify] and [has].

    Python objects are modelled as follows.
    - The parsed content is a tree of dicts (string keys, insertion order
      kept), lists and scalars: the [value] type.
    - Exceptions are the [exn] type; a call that may raise returns a
      [result].
    - [set] and [delete] mutate [self.parsed_content] in place through the
      local variable [ref], which aliases a node inside the parsed content.
      The parser object is therefore threaded explicitly as a state, a
      reference is the path of the node it points at, and a computation is
      a function from the state to an outcome and the state left behind,
      also when the outcome is an exception.
    - The parsed content is a tree, as [toml.loads] builds it: no dict or
      list is held under two keys.  Content in which [set] has stored an
      object that the parsed content already holds elsewhere is outside
      the model. *)

From Stdlib Require Import String Ascii List ZArith Bool Lia.
From Stdlib Require Import Floats.SpecFloat.
Import ListNotations.

Local Open Scope string_scope.
Local Open Scope Z_scope.

(** ** Exceptions and results *)

(** [toml.TomlDecodeError(msg, doc, pos)] of the toml library. *)
Record TomlDecodeError_t : Type := mkTomlDecodeError {
  tde_msg : string;
  tde_doc : string;
  tde_pos : Z
}.

(** The single argument a [ParsingError] is raised with: the f-string of
    [get], or the decode error caught in [parse]. *)
Inductive parsing_error_arg : Type :=
| Message (text : string)
| Wrapped (error : TomlDecodeError_t).

Inductive exn : Type :=
| TypeError (msg : string)
| KeyError (key : string)
| NameError (name : string)
| TomlDecodeError (error : TomlDecodeError_t)
| ParsingError (arg : parsing_error_arg)
| IndexError (msg : string).

Inductive result (A : Type) : Type :=
| Ok (a : A)
| Raise (e : exn).

Arguments Ok {A} a.
Arguments Raise {A} e.

Module ResultMonad.

Definition bind {A B : Type} (r : result A) (k : A -> result B) : result B :=
  match r with
  | Ok a => k a
  | Raise e => Raise e
  end.

Declare Scope result_scope.
Delimit Scope result_scope with result.

Notation "x <- c ;; k" := (bind c (fun x => k))
  (at level 61, c at next level, right associativity) : result_scope.

End ResultMonad.

Import ResultMonad.
Local Open Scope result_scope.

(** ** The parsed content *)

#[local] Unset Elimination Schemes.

(** What [toml.loads] builds and what [set] stores: dicts with string keys
    in insertion order, lists, and the scalars [str], [int], [float] and
    [bool].  A float is an IEEE 754 binary64 value.  The tree shares no
    node: every dict and list has one parent. *)
Inductive value : Type :=
| VStr (s : string)
| VInt (z : Z)
| VFloat (f : spec_float)
| VBool (b : bool)
| VList (items : list value)
| VDict (entries : list (string * value)).

#[local] Set Elimination Schemes.

(** ** Induction on the parsed content *)

Section ValueInduction.

Variable P : value -> Prop.

Hypothesis P_str : forall s, P (VStr s).
Hypothesis P_int : forall z, P (VInt z).
Hypothesis P_float : forall f, P (VFloat f).
Hypothesis P_bool : forall b, P (VBool b).
Hypothesis P_list : forall items, Forall P items -> P (VList items).
Hypothesis P_dict :
  forall entries, Forall (fun entry => P (snd entry)) entries -> P (VDict entries).

Fixpoint value_ind (v : value) : P v :=
  match v with
  | VStr s => P_str s
  | VInt z => P_int z
  | VFloat f => P_float f
  | VBool b => P_bool b
  | VList items =>
      P_list items
        (list_ind (Forall P) (Forall_nil P)
           (fun item _ IH => Forall_cons item (value_ind item) IH) items)
  | VDict entries =>
      P_dict entries
        (list_ind (Forall (fun entry => P (snd entry))) (Forall_nil _)
           (fun entry _ IH => Forall_cons entry (value_ind (snd entry)) IH)
           entries)
  end.

End ValueInduction.

Definition is_scalar (v : value) : bool :=
  match v with
  | VList _ | VDict _ => false
  | _ => true
  end.

Definition is_mapping (v : value) : bool :=
  match v with
  | VDict _ => true
  | _ => false
  end.

(** A container is a node that is not a scalar: a mapping or a sequence. *)
Definition is_container (v : value) : bool := negb (is_scalar v).

(** Python's [type(v).__name__], as it appears in the messages of the
    interpreter's [TypeError]s. *)
Definition type_name (v : value) : string :=
  match v with
  | VStr _ => "str"
  | VInt _ => "int"
  | VFloat _ => "float"
  | VBool _ => "bool"
  | VList _ => "list"
  | VDict _ => "dict"
  end.

(** ** Dict primitives *)

Module Dict.

Definition t : Type := list (string * value).

(** [d.get(k)]: the value stored under [k], if any. *)
Fixpoint find (d : t) (k : string) : option value :=
  match d with
  | [] => None
  | (k', v) :: d' => if String.eqb k' k then Some v else find d' k
  end.

(** [d[k] = v]: an existing key keeps its position, a new key goes last. *)
Fixpoint store (d : t) (k : string) (v : value) : t :=
  match d with
  | [] => [(k, v)]
  | (k', v') :: d' =>
      if String.eqb k' k then (k', v) :: d' else (k', v') :: store d' k v
  end.

(** [del d[k]] on a dict that has [k]: the entry disappears, the order of
    the others is kept.  The keys of a dict are distinct; on a list that
    repeats [k], no entry with that key is left. *)
Fixpoint remove (d : t) (k : string) : t :=
  match d with
  | [] => []
  | (k', v') :: d' =>
      if String.eqb k' k then remove d' k else (k', v') :: remove d' k
  end.

End Dict.

(** ** Subscription with a string key

    The keys [TomlParser] subscripts with are always [str] objects: the
    [key] argument or a segment of it.  The texts of the [TypeError]s are
    those of CPython 3.8; the properties below depend on the class of an
    exception and, for [KeyError], on its key, never on these texts. *)

(** [obj[key]] *)
Definition getitem (obj : value) (key : string) : result value :=
  match obj with
  | VDict d =>
      match Dict.find d key with
      | Some v => Ok v
      | None => Raise (KeyError key)
      end
  | VList _ => Raise (TypeError "list indices must be integers or slices, not str")
  | VStr _ => Raise (TypeError "string indices must be integers")
  | _ => Raise (TypeError ("'" ++ type_name obj ++ "' object is not subscriptable"))
  end.

(** [obj[key] = v]: the object after the assignment. *)
Definition setitem (obj : value) (key : string) (v : value) : result value :=
  match obj with
  | VDict d => Ok (VDict (Dict.store d key v))
  | VList _ => Raise (TypeError "list indices must be integers or slices, not str")
  | _ => Raise (TypeError ("'" ++ type_name obj ++ "' object does not support item assignment"))
  end.

(** [del obj[key]]: the object after the deletion. *)
Definition delitem (obj : value) (key : string) : result value :=
  match obj with
  | VDict d =>
      match Dict.find d key with
      | Some _ => Ok (VDict (Dict.remove d key))
      | None => Raise (KeyError key)
      end
  | VList _ => Raise (TypeError "list indices must be integers or slices, not str")
  | _ => Raise (TypeError ("'" ++ type_name obj ++ "' object doesn't support item deletion"))
  end.

(** ** The parser object and references into its content *)

(** The only attribute of a [TomlParser] instance. *)
Record TomlParser : Type := mkTomlParser {
  parsed_content : value
}.

(** A reference to a node of the parsed content: the keys that lead to it
    from the root, which identify the node since the tree shares none.
    The empty path is [self.parsed_content] itself. *)
Definition path : Type := list string.

(** The node a path leads to: one subscription per key. *)
Fixpoint descend (node : value) (p : path) : result value :=
  match p with
  | [] => Ok node
  | k :: p' => child <- getitem node k ;; descend child p'
  end.

(** The tree after the node at [p] has been mutated by [f]: every dict on
    the way holds the mutated child under the same key. *)
Fixpoint mutate_at (node : value) (p : path) (f : value -> result value)
  : result value :=
  match p with
  | [] => f node
  | k :: p' =>
      child <- getitem node k ;;
      child' <- mutate_at child p' f ;;
      setitem node k child'
  end.

Module Method.

(** A method body: from the parser before the call to the outcome and
    the parser after it. *)
Definition M (A : Type) : Type := TomlParser -> result A * TomlParser.

Definition ret {A : Type} (a : A) : M A := fun self => (Ok a, self).

Definition bind {A B : Type} (m : M A) (k : A -> M B) : M B :=
  fun self =>
    match m self with
    | (Ok a, self') => k a self'
    | (Raise e, self') => (Raise e, self')
    end.

(** A computation that only reads the parser. *)
Definition read {A : Type} (f : TomlParser -> result A) : M A :=
  fun self => (f self, self).

(** A computation that raises without mutating. *)
Definition lift {A : Type} (r : result A) : M A := fun self => (r, self).

(** [ref[key]] for a reference [ref]: a reference to the child. *)
Definition ref_getitem (ref : path) (key : string) : M path :=
  read (fun self =>
    obj <- descend (parsed_content self) ref ;;
    _ <- getitem obj key ;;
    Ok (ref ++ [key])%list).

(** [ref[key] = v] *)
Definition ref_setitem (ref : path) (key : string) (v : value) : M unit :=
  fun self =>
    match mutate_at (parsed_content self) ref (fun obj => setitem obj key v) with
    | Ok content => (Ok tt, mkTomlParser content)
    | Raise e => (Raise e, self)
    end.

(** [del ref[key]] *)
Definition ref_delitem (ref : path) (key : string) : M unit :=
  fun self =>
    match mutate_at (parsed_content self) ref (fun obj => delitem obj key) with
    | Ok content => (Ok tt, mkTomlParser content)
    | Raise e => (Raise e, self)
    end.

Declare Scope method_scope.
Delimit Scope method_scope with method.

Notation "x <- c ;; k" := (bind c (fun x => k))
  (at level 61, c at next level, right associativity) : method_scope.

End Method.

(** ** Strings *)

(** [c in s] for a one-character string [c]. *)
Fixpoint contains_char (c : ascii) (s : string) : bool :=
  match s with
  | EmptyString => false
  | String c' s' => if Ascii.eqb c' c then true else contains_char c s'
  end.

(** [enumerate(l)] *)
Fixpoint enumerate_from {A : Type} (start : Z) (l : list A) : list (Z * A) :=
  match l with
  | [] => []
  | a :: l' => (start, a) :: enumerate_from (start + 1) l'
  end.

Definition enumerate {A : Type} (l : list A) : list (Z * A) := enumerate_from 0 l.

(** [len(l)] *)
Definition len {A : Type} (l : list A) : Z := Z.of_nat (List.length l).

(** ** config_file.utils *)

(** The segments of [s], the last one under construction in [current]: a
    dot ends a segment unless a backslash precedes it. *)
Fixpoint split_segments (current : string) (s : string) : list string :=
  match s with
  | EmptyString => [current]
  | String "\" (String "." s') => split_segments (current ++ "\.") s'
  | String "." s' => current :: split_segments "" s'
  | String c s' => split_segments (current ++ String c "") s'
  end.

(** Modelled from the spec: [split_on_dot] of [config_file/utils.py], which
    is not part of the sources at hand.  It splits on [.] while respecting
    backslash-escaped dots and fails with [ParsingError] if the key is
    empty; a key that is not a string is excluded by the type.  The spec
    fixes neither the text of the error nor whether the backslash of an
    escaped dot stays in the segment: the segments are kept as written. *)
Definition split_on_dot (key : string) : result (list string) :=
  match key with
  | EmptyString => Raise (ParsingError (Message "cannot split an empty key"))
  | _ => Ok (split_segments "" key)
  end.

(** ** config_file.nested_lookup

    The module is not part of the sources at hand; its four functions are
    modelled from the spec's description of the all-occurrences
    operations. *)

(** Modelled from the spec: [nested_lookup] of [config_file/nested_lookup.py]
    (the spec's [lookup_all]).  It recursively visits every mapping and
    sequence node and, for each mapping entry whose key equals the leaf
    key, collects its value: depth first, pre-order, mappings in insertion
    order, sequences in index order, descending into the child itself.  It
    returns the empty sequence if nothing is found. *)
Fixpoint nested_lookup (key : string) (document : value) : list value :=
  match document with
  | VDict entries =>
      flat_map (fun entry =>
                  let '(k, v) := entry in
                  (if String.eqb k key then [v] else []) ++ nested_lookup key v)%list
               entries
  | VList items => flat_map (nested_lookup key) items
  | _ => []
  end.

(** Modelled from the spec: [get_occurrence_of_key] of
    [config_file/nested_lookup.py] (the spec's [count_occurrences]): the
    same traversal as [nested_lookup], returning the count of matches. *)
Fixpoint get_occurrence_of_key (document : value) (key : string) : Z :=
  match document with
  | VDict entries =>
      fold_right Z.add 0
        (map (fun entry =>
                let '(k, v) := entry in
                (if String.eqb k key then 1 else 0) + get_occurrence_of_key v key)
             entries)
  | VList items =>
      fold_right Z.add 0 (map (fun v => get_occurrence_of_key v key) items)
  | _ => 0
  end.

(** Modelled from the spec: [nested_update] of [config_file/nested_lookup.py]
    (the spec's [update_all]) in its in-place mode: the same traversal, and
    every matching mapping entry is replaced by the new value.  The result
    is the document after the mutation. *)
Fixpoint nested_update (document : value) (key : string) (v : value) : value :=
  match document with
  | VDict entries =>
      VDict (map (fun entry =>
                    let '(k, child) := entry in
                    if String.eqb k key then (k, v)
                    else (k, nested_update child key v))
                 entries)
  | VList items => VList (map (fun child => nested_update child key v) items)
  | _ => document
  end.

(** Modelled from the spec: [nested_delete] of [config_file/nested_lookup.py]
    (the spec's [delete_all]) in its in-place mode: the same traversal, and
    every matching mapping entry is removed.  The result is the document
    after the mutation. *)
Fixpoint nested_delete (document : value) (key : string) : value :=
  match document with
  | VDict entries =>
      VDict (flat_map (fun entry =>
                         let '(k, child) := entry in
                         if String.eqb k key then []
                         else [(k, nested_delete child key)])
                      entries)
  | VList items => VList (map (fun child => nested_delete child key) items)
  | _ => document
  end.

(** ** Text helpers of the value coercion *)

Definition is_upper (c : ascii) : bool :=
  (Nat.leb 65 (nat_of_ascii c) && Nat.leb (nat_of_ascii c) 90)%bool.

Definition is_digit (c : ascii) : bool :=
  (Nat.leb 48 (nat_of_ascii c) && Nat.leb (nat_of_ascii c) 57)%bool.

Definition is_space (c : ascii) : bool :=
  match nat_of_ascii c with
  | 9%nat | 10%nat | 11%nat | 12%nat | 13%nat | 32%nat => true
  | _ => false
  end.

(** [s.lower()] on ASCII text. *)
Fixpoint lower (s : string) : string :=
  match s with
  | EmptyString => EmptyString
  | String c s' =>
      String (if is_upper c then ascii_of_nat (nat_of_ascii c + 32) else c) (lower s')
  end.

(** The number a run of decimal digits denotes, after the digits [acc]
    already read; [None] if a character is not a digit. *)
Fixpoint digits_value (acc : Z) (s : string) : option Z :=
  match s with
  | EmptyString => Some acc
  | String c s' =>
      if is_digit c
      then digits_value (10 * acc + Z.of_nat (nat_of_ascii c - 48)) s'
      else None
  end.

Definition unsigned_pattern (s : string) : option Z :=
  match s with
  | EmptyString => None
  | _ => digits_value 0 s
  end.

(** The integer pattern: an optional sign and at least one digit. *)
Definition int_pattern (raw : string) : option Z :=
  match raw with
  | String "-" s => option_map Z.opp (unsigned_pattern s)
  | String "+" s => unsigned_pattern s
  | _ => unsigned_pattern raw
  end.

Fixpoint lstrip (s : string) : string :=
  match s with
  | EmptyString => EmptyString
  | String c s' => if is_space c then lstrip s' else s
  end.

Definition reverse (s : string) : string :=
  string_of_list_ascii (rev (list_ascii_of_string s)).

(** [s.strip()] *)
Definition strip (s : string) : string := reverse (lstrip (reverse (lstrip s))).

(** [s.split(sep)] for a one-character separator, the piece under
    construction in [current]. *)
Fixpoint split_on_char (sep : ascii) (current : string) (s : string) : list string :=
  match s with
  | EmptyString => [current]
  | String c s' =>
      if Ascii.eqb c sep then current :: split_on_char sep "" s'
      else split_on_char sep (current ++ String c "") s'
  end.

(** ** The module's namespace *)

(** The names the import statements and the class statement of
    [toml_parser.py] bind at module level. *)
Definition module_globals : list string :=
  [ "toml"; "get_occurrence_of_key"; "nested_delete"; "nested_lookup";
    "nested_update"; "ParsingError"; "BaseParser"; "parse_value";
    "split_on_dot"; "TomlParser" ].

(** Looking up a name that is neither local nor a builtin: the module
    level has it or the lookup raises [NameError]. *)
Definition load_global (name : string) : result unit :=
  if existsb (String.eqb name) module_globals then Ok tt
  else Raise (NameError name).

(** ** A sample document

    [[header_one]], [number_key = 5], [string_key = "0"], then
    [calendar = 5] and [servers = [1, 2]] at top level, as [toml.loads]
    returns it. *)
Definition sample_content : value :=
  VDict [ ("calendar", VInt 5);
          ("servers", VList [VInt 1; VInt 2]);
          ("header_one", VDict [ ("number_key", VInt 5);
                                 ("string_key", VStr "0") ]) ].

Definition sample : TomlParser := mkTomlParser sample_content.

(** A stand-in for Python's [float] that knows the literals of the
    examples only. *)
Definition sample_float_of_string (s : string) : option spec_float :=
  if String.eqb s "0.5" then Some (S754_finite false 4503599627370496 (-53)) else None.

(** ** The adapter *)

Section Adapter.

(** Python's [float(s)]: the texts that are float literals and the
    binary64 value each denotes. *)
Variable float_of_string : string -> option spec_float.

(** [toml.loads] of the toml library. *)
Variable toml_loads : string -> result value.

(** [json.dumps(obj, indent=n)] of the standard library. *)
Variable json_dumps : value -> Z -> string.

(** *** config_file.parsers.parse_value *)

(** The first three rules of the coercion, which leave a text that is
    neither a boolean nor a number as it is. *)
Definition coerce_scalar (raw : string) : value :=
  if String.eqb (lower raw) "true" then VBool true
  else if String.eqb (lower raw) "false" then VBool false
  else match int_pattern raw with
       | Some z => VInt z
       | None =>
           match float_of_string raw with
           | Some f => VFloat f
           | None => VStr raw
           end
       end.

(** Modelled from the spec: the Value Coercion [coerce(raw)], whose
    source is not at hand.  A text that case-insensitively equals
    "true" or "false" is a boolean; else a text that matches the integer
    pattern is an integer; else one that matches the float pattern is a
    float; else a text that contains a comma is the sequence of its
    coerced elements, trimmed of surrounding whitespace; else the text is
    returned unchanged.  The elements hold no comma, so coercing them
    never builds a sequence. *)
Definition coerce (raw : string) : value :=
  match coerce_scalar raw with
  | VStr _ =>
      if contains_char "," raw
      then VList (map (fun element => coerce_scalar (strip element))
                      (split_on_char "," "" raw))
      else VStr raw
  | coerced => coerced
  end.

(** Modelled from the spec: [parse_value] of [config_file/parsers], whose
    source is not at hand: the Value Coercion applied to the result,
    element-wise if the result is a sequence.  A value that is not text
    already has its native type. *)
Fixpoint parse_value (v : value) : value :=
  match v with
  | VStr raw => coerce raw
  | VList items => VList (map parse_value items)
  | _ => v
  end.

(** *** class TomlParser(BaseParser) *)

(** [TomlParser.parse] *)
Definition parse (file_contents : string) : result value :=
  match toml_loads file_contents with
  | Raise (TomlDecodeError error) => Raise (ParsingError (Wrapped error))
  | outcome => outcome
  end.

(** Modelled from the spec: [BaseParser.__init__], whose source is not at
    hand: the parsed content is created once, at construction, by
    parsing the file text. *)
Definition BaseParser_init (file_contents : string) : result TomlParser :=
  content <- parse file_contents ;;
  Ok (mkTomlParser content).

(** [TomlParser.__init__] *)
Definition TomlParser_init (file_contents : string) : result TomlParser :=
  BaseParser_init file_contents.

(** How the [for] loop of [get] ends: normally, with [result], or by an
    exception, with the values [key] and [key_for_error] have then. *)
Inductive get_loop_outcome : Type :=
| Completed (result : value)
| Interrupted (e : exn) (key : string) (key_for_error : option string).

(** [for key in split_keys: key_for_error = key; result = result[key]] *)
Fixpoint get_loop (split_keys : list string) (key : string)
         (key_for_error : option string) (result : value) : get_loop_outcome :=
  match split_keys with
  | [] => Completed result
  | segment :: split_keys' =>
      match getitem result segment with
      | Ok child => get_loop split_keys' segment (Some segment) child
      | Raise e => Interrupted e segment (Some segment)
      end
  end.

(** [str(x)] inside the f-string. *)
Definition format_optional (x : option string) : string :=
  match x with
  | Some s => s
  | None => "None"
  end.

(** [TomlParser.get] *)
Definition get (self : TomlParser) (key : string) (parse_types all : bool)
  : result value :=
  result <-
    (if all then Ok (VList (nested_lookup key (parsed_content self)))
     else if contains_char "." key then
       split_keys <- split_on_dot key ;;
       match get_loop split_keys key None (parsed_content self) with
       | Completed result => Ok result
       | Interrupted (TypeError _) key key_for_error =>
           Raise (ParsingError (Message
             ("Cannot get " ++ key ++ " because " ++
              format_optional key_for_error ++ " is not subscriptable.")))
       | Interrupted e _ _ => Raise e
       end
     else getitem (parsed_content self) key) ;;
  Ok (if parse_types then parse_value result else result).

(** *** The mutating methods *)

Import Method.
Local Open Scope method_scope.

(** The body of the [for] loop of [set], from the pair [(index, key)]
    the enumeration is at:
    [if index == indexes_length - 1: ref[key] = value; break]
    and otherwise [ref = ref[key]]. *)
Fixpoint set_loop (indexes_length : Z) (v : value) (ref : path)
         (enumerated : list (Z * string)) : M unit :=
  match enumerated with
  | [] => ret tt
  | (index, key) :: enumerated' =>
      if index =? indexes_length - 1 then ref_setitem ref key v
      else
        (ref' <- ref_getitem ref key ;;
         set_loop indexes_length v ref' enumerated')%method
  end.

(** [nested_update] or [nested_delete] called with [in_place=True] on
    the parsed content. *)
Definition in_place (f : value -> value) : M unit :=
  fun self => (Ok tt, mkTomlParser (f (parsed_content self))).

(** [TomlParser.set] *)
Definition set (key : string) (v : value) (all : bool) : M bool :=
  (_ <- (if all then in_place (fun document => nested_update document key v)
         else if contains_char "." key then
           (indexes <- lift (split_on_dot key) ;;
            let indexes_length := len indexes in
            set_loop indexes_length v [] (enumerate indexes))%method
         else ref_setitem [] key v) ;;
   ret true)%method.

(** The body of the [for] loop of [delete]:
    [if index == indexes_length - 1: del ref[key]; break]
    and otherwise [ref = ref[key]]. *)
Fixpoint delete_loop (indexes_length : Z) (ref : path)
         (enumerated : list (Z * string)) : M unit :=
  match enumerated with
  | [] => ret tt
  | (index, key) :: enumerated' =>
      if index =? indexes_length - 1 then ref_delitem ref key
      else
        (ref' <- ref_getitem ref key ;;
         delete_loop indexes_length ref' enumerated')%method
  end.

(** [TomlParser.delete] *)
Definition delete (key : string) (all : bool) : M bool :=
  (_ <- (if all then in_place (fun document => nested_delete document key)
         else if contains_char "." key then
           (indexes <- lift (split_on_dot key) ;;
            let indexes_length := len indexes in
            delete_loop indexes_length [] (enumerate indexes))%method
         else ref_delitem [] key) ;;
   ret true)%method.

(** [TomlParser.stringify]: the body names [json], which the module
    never imports. *)
Definition stringify (self : TomlParser) : result string :=
  (_ <- load_global "json" ;;
   Ok (json_dumps (parsed_content self) 4))%result.

(** [TomlParser.has] *)
Definition has (self : TomlParser) (search_key : string) : bool :=
  get_occurrence_of_key (parsed_content self) search_key >? 0.

(** *** Vocabulary of the properties *)

(** The spec's [lookup_path(tree, segments)]: it descends one segment at
    a time; a segment absent from a mapping is a key that is not found,
    and a node that cannot be subscripted with the segment fails with a
    [ParsingError] that names the segment. *)
Fixpoint lookup_path (tree : value) (segments : list string) : result value :=
  match segments with
  | [] => Ok tree
  | segment :: segments' =>
      match tree with
      | VDict d =>
          match Dict.find d segment with
          | Some child => lookup_path child segments'
          | None => Raise (KeyError segment)
          end
      | _ =>
          Raise (ParsingError (Message
            ("Cannot get " ++ segment ++ " because " ++ segment ++
             " is not subscriptable.")))
      end
  end.

(** The spec's key routing: all occurrences, a dotted path, or a direct
    single-level lookup. *)
Definition lookup (tree : value) (key : string) (all : bool) : result value :=
  if all then Ok (VList (nested_lookup key tree))
  else if contains_char "." key then
    (segments <- split_on_dot key ;; lookup_path tree segments)%result
  else getitem tree key.

(** The path a key addresses when [all] is false: its segments if it is
    dotted, the key itself otherwise. *)
Definition key_path (key : string) : result path :=
  if contains_char "." key then split_on_dot key else Ok [key].

(** A not-found error: the [KeyError] of a mapping that lacks the key. *)
Definition is_not_found (e : exn) : bool :=
  match e with
  | KeyError _ => true
  | _ => false
  end.

(** [key] is the key of an entry of some mapping of the tree. *)
Inductive occurs (key : string) : value -> Prop :=
| occurs_entry : forall d v,
    In (key, v) d -> occurs key (VDict d)
| occurs_below_entry : forall d k v,
    In (k, v) d -> occurs key v -> occurs key (VDict d)
| occurs_below_item : forall items v,
    In v items -> occurs key v -> occurs key (VList items).

(** Two paths part ways: after a common prefix each goes on with a key
    of its own, so neither leads into the node of the other. *)
Definition diverges (q p : path) : Prop :=
  exists common a b q' p',
    q = (common ++ a :: q')%list /\ p = (common ++ b :: p')%list /\ a <> b.

(** The shape the loops of [set] and [delete] share: [final] at the
    last index, [ref = ref[key]] before it. *)
Fixpoint walk_then (final : path -> string -> Method.M unit)
         (indexes_length : Z) (ref : path) (enumerated : list (Z * string))
  : Method.M unit :=
  match enumerated with
  | [] => Method.ret tt
  | (index, key) :: enumerated' =>
      if index =? indexes_length - 1 then final ref key
      else
        Method.bind (Method.ref_getitem ref key)
          (fun ref' => walk_then final indexes_length ref' enumerated')
  end.

(** *** Dicts *)

Lemma find_store_same : forall d k v, Dict.find (Dict.store d k v) k = Some v.
Proof.
  induction d as [|[k' v'] d IH]; intros k v; simpl.
  - now rewrite String.eqb_refl.
  - destruct (String.eqb k' k) eqn:E; simpl; rewrite E; auto.
Qed.

Lemma find_store_other :
  forall d k v k', k <> k' -> Dict.find (Dict.store d k v) k' = Dict.find d k'.
Proof.
  induction d as [|[k0 v0] d IH]; intros k v k' Hne; simpl.
  - destruct (String.eqb_spec k k'); congruence.
  - destruct (String.eqb_spec k0 k) as [->|Hk]; simpl.
    + destruct (String.eqb_spec k k'); congruence.
    + destruct (String.eqb_spec k0 k'); auto.
Qed.

Lemma find_remove_same : forall d k, Dict.find (Dict.remove d k) k = None.
Proof.
  induction d as [|[k' v'] d IH]; intros k; simpl; auto.
  destruct (String.eqb k' k) eqn:E; simpl; try rewrite E; auto.
Qed.

Lemma find_remove_other :
  forall d k k', k <> k' -> Dict.find (Dict.remove d k) k' = Dict.find d k'.
Proof.
  induction d as [|[k0 v0] d IH]; intros k k' Hne; simpl; auto.
  destruct (String.eqb_spec k0 k) as [->|Hk]; simpl.
  - destruct (String.eqb_spec k k'); [congruence | auto].
  - destruct (String.eqb_spec k0 k'); auto.
Qed.

(** *** Descending *)

Lemma descend_app :
  forall p q node,
    descend node (p ++ q)%list = (child <- descend node p ;; descend child q)%result.
Proof.
  induction p as [|k p IH]; intros q node; simpl; auto.
  destruct (getitem node k); simpl; auto.
Qed.

(** Only a mapping can be subscripted with a string. *)
Lemma getitem_ok_mapping :
  forall node key child,
    getitem node key = Ok child ->
    exists d, node = VDict d /\ Dict.find d key = Some child.
Proof.
  intros [s|z|f|b|items|d] key child H; simpl in H; try discriminate.
  exists d; split; auto.
  destruct (Dict.find d key); congruence.
Qed.

Lemma getitem_scalar_type_error :
  forall node key,
    is_scalar node = true -> exists msg, getitem node key = Raise (TypeError msg).
Proof.
  intros [s|z|f|b|items|d] key H; simpl in *; try discriminate; eauto.
Qed.

(** *** The loop of [get] *)

Lemma get_loop_interrupted :
  forall pre segment post key key_for_error tree node e,
    descend tree pre = Ok node ->
    getitem node segment = Raise e ->
    get_loop (pre ++ segment :: post)%list key key_for_error tree
    = Interrupted e segment (Some segment).
Proof.
  induction pre as [|k pre IH]; intros segment post key kfe tree node e Hd Hg;
    simpl in *.
  - injection Hd as ->. now rewrite Hg.
  - destruct (getitem tree k) as [child|e']; simpl in Hd; [|discriminate].
    eapply IH; eauto.
Qed.

(** *** stringify *)

(** C1, as the code has it: [stringify] raises [NameError] for the name
    [json] whatever the parsed content is, so it returns no text, and in
    particular not the file text the parser was constructed from. *)
Theorem stringify_raises_name_error :
  forall self : TomlParser,
    stringify self = Raise (NameError "json")
    /\ (forall text, stringify self <> Ok text)
    /\ (forall file_contents,
          TomlParser_init file_contents = Ok self ->
          stringify self <> Ok file_contents).
Proof.
  intros self.
  assert (Hraise : stringify self = Raise (NameError "json")) by reflexivity.
  split; [exact Hraise|].
  split; intros text; intros; rewrite Hraise; discriminate.
Qed.

(** *** parse *)


(** *** get: the failures of a dotted key *)

(** C2: with [all] false and a dotted key, if the descent reaches a
    scalar node while a segment is still to be looked up, [get] fails
    with a [ParsingError] whose message names that segment, the one at
    which the descent failed. *)
Theorem get_scalar_node_parsing_error :
  forall (self : TomlParser) (key : string) (parse_types : bool)
         (pre : list string) (segment : string) (post : list string)
         (node : value),
    contains_char "." key = true ->
    split_on_dot key = Ok (pre ++ segment :: post)%list ->
    descend (parsed_content self) pre = Ok node ->
    is_scalar node = true ->
    get self key parse_types false
    = Raise (ParsingError (Message
        ("Cannot get " ++ segment ++ " because " ++ segment ++
         " is not subscriptable."))).
Proof.
  intros self key parse_types pre segment post node Hdot Hsplit Hd Hscalar.
  destruct (getitem_scalar_type_error node segment Hscalar) as [msg Hmsg].
  unfold get. rewrite Hdot, Hsplit. simpl.
  now rewrite (get_loop_interrupted pre segment post key None _ _ _ Hd Hmsg).
Qed.

(** C9: with [all] false and a dotted key, if a segment is absent from
    the mapping the descent has reached, [get] lets the [KeyError] of
    that segment through; it is not turned into a [ParsingError]. *)
Theorem get_absent_segment_key_error :
  forall (self : TomlParser) (key : string) (parse_types : bool)
         (pre : list string) (segment : string) (post : list string)
         (d : Dict.t),
    contains_char "." key = true ->
    split_on_dot key = Ok (pre ++ segment :: post)%list ->
    descend (parsed_content self) pre = Ok (VDict d) ->
    Dict.find d segment = None ->
    get self key parse_types false = Raise (KeyError segment)
    /\ forall arg, get self key parse_types false <> Raise (ParsingError arg).
Proof.
  intros self key parse_types pre segment post d Hdot Hsplit Hd Hfind.
  assert (Hg : getitem (VDict d) segment = Raise (KeyError segment))
    by (simpl; now rewrite Hfind).
  assert (Hget : get self key parse_types false = Raise (KeyError segment)).
  { unfold get. rewrite Hdot, Hsplit. simpl.
    now rewrite (get_loop_interrupted pre segment post key None _ _ _ Hd Hg). }
  split; [exact Hget|].
  intros arg Harg. rewrite Hget in Harg. discriminate.
Qed.

(** *** get: the routing *)

(** The loop of [get] under its handler computes the spec's
    [lookup_path]. *)
Lemma get_loop_lookup_path :
  forall segments key key_for_error tree,
    match get_loop segments key key_for_error tree with
    | Completed result => Ok result
    | Interrupted (TypeError _) key' key_for_error' =>
        Raise (ParsingError (Message
          ("Cannot get " ++ key' ++ " because " ++
           format_optional key_for_error' ++ " is not subscriptable.")))
    | Interrupted e _ _ => Raise e
    end = lookup_path tree segments.
Proof.
  induction segments as [|segment segments IH]; intros key kfe tree; simpl.
  - reflexivity.
  - destruct tree as [s|z|f|b|items|d]; simpl; try reflexivity.
    destruct (Dict.find d segment) as [child|]; simpl; [apply IH | reflexivity].
Qed.

Lemma get_lookup :
  forall self key parse_types all,
    get self key parse_types all
    = (result <- lookup (parsed_content self) key all ;;
       Ok (if parse_types then parse_value result else result))%result.
Proof.
  intros self key parse_types all. unfold get, lookup.
  destruct all; [reflexivity|].
  destruct (contains_char "." key); [|reflexivity].
  destruct (split_on_dot key) as [segments|e]; simpl; [|reflexivity].
  now rewrite get_loop_lookup_path.
Qed.

(** What the descent of a path finds, or that a mapping lacks a key, is
    what [lookup_path] answers. *)
Lemma lookup_path_descend :
  forall segments tree,
    match descend tree segments with
    | Ok node => lookup_path tree segments = Ok node
    | Raise (KeyError k) => lookup_path tree segments = Raise (KeyError k)
    | Raise _ => True
    end.
Proof.
  induction segments as [|segment segments IH]; intros tree; simpl.
  - reflexivity.
  - destruct tree as [s|z|f|b|items|d]; simpl; auto.
    destruct (Dict.find d segment) as [child|]; simpl; [apply IH | reflexivity].
Qed.

(** With [all] and [parse_types] false, [get] answers what the descent of
    the path of the key finds, and the [KeyError] of a key a mapping on
    the path lacks. *)
Lemma get_key_path :
  forall self key segments,
    key_path key = Ok segments ->
    match descend (parsed_content self) segments with
    | Ok node => get self key false false = Ok node
    | Raise (KeyError k) => get self key false false = Raise (KeyError k)
    | Raise _ => True
    end.
Proof.
  intros self key segments Hpath. rewrite get_lookup.
  unfold key_path in Hpath. unfold lookup.
  destruct (contains_char "." key).
  - rewrite Hpath. simpl.
    pose proof (lookup_path_descend segments (parsed_content self)) as Hl.
    destruct (descend (parsed_content self) segments) as [node|[]]; auto;
      now rewrite Hl.
  - injection Hpath as <-. simpl.
    destruct (getitem (parsed_content self) key) as [node|[]]; simpl; auto.
Qed.

(** C6: [get] routes by the shape of the call.  With [all] true the
    result is the all-occurrences lookup over the whole tree; otherwise
    a key that contains the delimiter is split by [split_on_dot] and the
    tree is descended one segment at a time; otherwise the key is looked
    up directly in the top level, which fails with [KeyError] when the
    top-level mapping lacks it.  In each case the result goes through
    [parse_value] if and only if [parse_types] is set. *)
Theorem get_routes_by_key_shape :
  forall (self : TomlParser) (key : string) (parse_types : bool),
    let tree := parsed_content self in
    let coerced := fun result =>
      if parse_types then parse_value result else result in
    get self key parse_types true
    = Ok (coerced (VList (nested_lookup key tree)))
    /\ (contains_char "." key = true ->
        get self key parse_types false
        = (segments <- split_on_dot key ;;
           result <- lookup_path tree segments ;;
           Ok (coerced result))%result)
    /\ (contains_char "." key = false ->
        get self key parse_types false
        = (result <- getitem tree key ;; Ok (coerced result))%result
        /\ forall d,
             tree = VDict d -> Dict.find d key = None ->
             get self key parse_types false = Raise (KeyError key)).
Proof.
  intros self key parse_types tree coerced. subst tree coerced.
  split; [reflexivity|]. split.
  - intros Hdot. rewrite get_lookup. unfold lookup. rewrite Hdot.
    destruct (split_on_dot key); reflexivity.
  - intros Hplain. split.
    + rewrite get_lookup. unfold lookup. now rewrite Hplain.
    + intros d Hd Hfind. rewrite get_lookup. unfold lookup.
      rewrite Hplain, Hd. simpl. now rewrite Hfind.
Qed.

(** *** get: the coercion *)

(** C8: when the lookup of a key succeeds, [get] with [parse_types]
    false returns the looked-up result unchanged and [get] with
    [parse_types] true returns its [parse_value]: the coercion of the
    text if the result is a string, the sequence of the coerced elements
    if it is a sequence.  The text "0" stays the string "0" in the first
    case and becomes the integer 0 in the second. *)
Theorem get_parse_types_coerces :
  forall (self : TomlParser) (key : string) (all : bool) (result : value),
    lookup (parsed_content self) key all = Ok result ->
    get self key false all = Ok result
    /\ get self key true all = Ok (parse_value result)
    /\ (forall raw, result = VStr raw -> parse_value result = coerce raw)
    /\ (forall items,
          result = VList items ->
          parse_value result = VList (map parse_value items))
    /\ (result = VStr "0" -> parse_value result = VInt 0).
Proof.
  intros self key all result Hlookup.
  rewrite !get_lookup, Hlookup. simpl.
  repeat split; intros; subst; reflexivity.
Qed.

(** *** has *)

Lemma sum_nonneg :
  forall l : list Z, Forall (fun n => 0 <= n) l -> 0 <= fold_right Z.add 0 l.
Proof.
  induction 1 as [|n l Hn _ IH]; simpl; lia.
Qed.

(** A sum of counts is positive exactly when one of them is. *)
Lemma sum_positive :
  forall l : list Z,
    Forall (fun n => 0 <= n) l ->
    (0 < fold_right Z.add 0 l <-> exists n, In n l /\ 0 < n).
Proof.
  induction 1 as [|n l Hn Hl IH]; simpl.
  - split; [lia | intros (n & [] & _)].
  - pose proof (sum_nonneg l Hl) as Hsum. split.
    + intros Hpos. destruct (Z.ltb_spec 0 n) as [Hlt|Hge].
      * exists n; auto.
      * destruct IH as [IH _]. destruct IH as (m & Hin & Hm); [lia|].
        exists m; auto.
    + intros (m & [->|Hin] & Hm); [lia|].
      destruct IH as [_ IH]. assert (0 < fold_right Z.add 0 l) by eauto. lia.
Qed.

Lemma get_occurrence_of_key_nonneg :
  forall document key, 0 <= get_occurrence_of_key document key.
Proof.
  intros document key.
  induction document as [s|z|f|b|items IH|entries IH] using value_ind;
    simpl; try lia; apply sum_nonneg.
  - induction IH; simpl; constructor; auto.
  - induction IH as [|[k v] entries Hv _ IHentries]; simpl; constructor; auto.
    simpl in Hv. destruct (String.eqb k key); lia.
Qed.

Lemma entry_counts_nonneg :
  forall (entries : list (string * value)) key,
    Forall (fun n => 0 <= n)
      (map (fun entry : string * value =>
              let '(k, v) := entry in
              (if String.eqb k key then 1 else 0) + get_occurrence_of_key v key)
           entries).
Proof.
  intros entries key. apply Forall_forall. intros n Hin.
  apply in_map_iff in Hin. destruct Hin as ([k v] & <- & _).
  pose proof (get_occurrence_of_key_nonneg v key).
  destruct (String.eqb k key); lia.
Qed.

Lemma item_counts_nonneg :
  forall (items : list value) key,
    Forall (fun n => 0 <= n)
      (map (fun v => get_occurrence_of_key v key) items).
Proof.
  intros items key. apply Forall_forall. intros n Hin.
  apply in_map_iff in Hin. destruct Hin as (v & <- & _).
  apply get_occurrence_of_key_nonneg.
Qed.

(** The count is positive exactly on the trees the key occurs in. *)
Lemma get_occurrence_of_key_positive :
  forall document key,
    0 < get_occurrence_of_key document key <-> occurs key document.
Proof.
  intros document key.
  induction document as [s|z|f|b|items IH|entries IH] using value_ind;
    simpl; try (split; [lia | inversion 1]).
  - rewrite (sum_positive _ (item_counts_nonneg items key)).
    rewrite Forall_forall in IH. split.
    + intros (n & Hin & Hn). apply in_map_iff in Hin.
      destruct Hin as (v & <- & Hv).
      eapply occurs_below_item; eauto. now apply IH.
    + intros Hocc. inversion Hocc as [| |items' v Hv Hsub]; subst.
      exists (get_occurrence_of_key v key). split.
      * apply in_map_iff. eauto.
      * now apply IH.
  - rewrite (sum_positive _ (entry_counts_nonneg entries key)).
    rewrite Forall_forall in IH. split.
    + intros (n & Hin & Hn). apply in_map_iff in Hin.
      destruct Hin as ([k v] & <- & Hkv).
      destruct (String.eqb_spec k key) as [->|Hne].
      * eapply occurs_entry; eauto.
      * eapply occurs_below_entry; eauto. apply (IH (k, v) Hkv). simpl. lia.
    + intros Hocc.
      inversion Hocc as [d v Hv|d k v Hkv Hsub|]; subst.
      * exists (1 + get_occurrence_of_key v key). split.
        -- apply in_map_iff. exists (key, v). split; auto.
           now rewrite String.eqb_refl.
        -- pose proof (get_occurrence_of_key_nonneg v key). lia.
      * exists ((if String.eqb k key then 1 else 0)
                + get_occurrence_of_key v key). split.
        -- apply in_map_iff. exists (k, v). auto.
        -- apply (IH (k, v) Hkv) in Hsub. simpl in Hsub.
           destruct (String.eqb k key); lia.
Qed.

Lemma len_app : forall (A : Type) (l l' : list A), len (l ++ l') = len l + len l'.
Proof. intros. unfold len. rewrite length_app. lia. Qed.

(** The two models of the all-occurrences traversal agree: the count of
    the occurrences of a key is the number of values the lookup of the
    key collects. *)
Lemma get_occurrence_of_key_nested_lookup :
  forall document key,
    get_occurrence_of_key document key = len (nested_lookup key document).
Proof.
  intros document key.
  induction document as [s|z|f|b|items IH|entries IH] using value_ind;
    simpl; try reflexivity.
  - induction IH as [|item items Hitem _ IHitems]; simpl; [reflexivity|].
    rewrite len_app. congruence.
  - induction IH as [|[k v] entries Hv _ IHentries]; simpl; [reflexivity|].
    simpl in Hv. rewrite !len_app, Hv, IHentries.
    destruct (String.eqb k key); reflexivity.
Qed.

(** C5: [has] answers true if and only if the number of occurrences of
    the search key in the tree is greater than zero, that is if and only
    if the key is the key of an entry of some mapping of the tree.  On
    the sample document it answers false for "header_one.blah", which no
    mapping has as a key, and so it does wherever that is the case. *)
Theorem has_iff_positive_count :
  forall (self : TomlParser) (search_key : string),
    (has self search_key = true
     <-> get_occurrence_of_key (parsed_content self) search_key > 0)
    /\ (has self search_key = true <-> occurs search_key (parsed_content self))
    /\ (~ occurs search_key (parsed_content self) -> has self search_key = false)
    /\ has sample "header_one.blah" = false.
Proof.
  intros self search_key.
  assert (Hcount : has self search_key = true
                   <-> get_occurrence_of_key (parsed_content self) search_key > 0).
  { unfold has. rewrite Z.gtb_ltb, Z.ltb_lt. lia. }
  assert (Hocc : has self search_key = true
                 <-> occurs search_key (parsed_content self)).
  { rewrite Hcount, <- get_occurrence_of_key_positive. lia. }
  repeat split; try apply Hcount; try apply Hocc.
  intros Hnot. destruct (has self search_key) eqn:E; [|reflexivity].
  exfalso. apply Hnot, Hocc. reflexivity.
Qed.

(** *** The loops of set and delete *)

Lemma len_cons : forall (A : Type) (a : A) (l : list A), len (a :: l) = len l + 1.
Proof. intros. unfold len. simpl length. lia. Qed.

Lemma len_nonneg : forall (A : Type) (l : list A), 0 <= len l.
Proof. intros. unfold len. lia. Qed.

Lemma len_app_last :
  forall (A : Type) (l : list A) (a : A), len (l ++ [a]) = len l + 1.
Proof. intros. unfold len. rewrite length_app. simpl. lia. Qed.

Lemma set_loop_walk_then :
  forall enumerated n v ref self,
    set_loop n v ref enumerated self
    = walk_then (fun ref key => ref_setitem ref key v) n ref enumerated self.
Proof.
  induction enumerated as [|[index key] enumerated IH]; intros n v ref self;
    simpl.
  - reflexivity.
  - destruct (index =? n - 1); [reflexivity|].
    unfold bind. destruct (ref_getitem ref key self) as [[ref'|e] self']; auto.
Qed.

Lemma delete_loop_walk_then :
  forall enumerated n ref self,
    delete_loop n ref enumerated self
    = walk_then ref_delitem n ref enumerated self.
Proof.
  induction enumerated as [|[index key] enumerated IH]; intros n ref self;
    simpl.
  - reflexivity.
  - destruct (index =? n - 1); [reflexivity|].
    unfold bind. destruct (ref_getitem ref key self) as [[ref'|e] self']; auto.
Qed.

(** [ref = ref[key]] reads the parser and leaves it as it is. *)
Lemma ref_getitem_run :
  forall ref key self,
    ref_getitem ref key self
    = (match descend (parsed_content self) (ref ++ [key])%list with
       | Ok _ => Ok (ref ++ [key])%list
       | Raise e => Raise e
       end, self).
Proof.
  intros ref key self. unfold ref_getitem, read. f_equal.
  rewrite descend_app. simpl.
  destruct (descend (parsed_content self) ref) as [obj|e]; simpl; auto.
  destruct (getitem obj key); reflexivity.
Qed.

(** When every key before the last resolves, the loop is the final
    statement alone, run on the parser as it was before the loop. *)
Lemma walk_then_reaches_parent :
  forall final n mid last ref i self node,
    i + len (mid ++ [last]) = n ->
    descend (parsed_content self) (ref ++ mid)%list = Ok node ->
    walk_then final n ref (enumerate_from i (mid ++ [last])) self
    = final (ref ++ mid)%list last self.
Proof.
  intros final n mid last.
  induction mid as [|k mid IH]; intros ref i self node Hlen Hd; simpl.
  - simpl app in Hlen. rewrite len_cons in Hlen.
    unfold len in Hlen. simpl in Hlen.
    replace (i =? n - 1) with true by (symmetry; apply Z.eqb_eq; lia).
    now rewrite app_nil_r.
  - simpl app in Hlen. rewrite len_cons, len_app_last in Hlen.
    pose proof (len_nonneg _ mid).
    replace (i =? n - 1) with false by (symmetry; apply Z.eqb_neq; lia).
    unfold bind. rewrite ref_getitem_run.
    replace (ref ++ k :: mid)%list with ((ref ++ [k]) ++ mid)%list in *
      by (now rewrite <- app_assoc).
    rewrite descend_app in Hd.
    destruct (descend (parsed_content self) (ref ++ [k])%list) as [child|e] eqn:E;
      simpl in Hd; [|discriminate].
    apply (IH (ref ++ [k])%list (i + 1) self node).
    + rewrite len_app_last. lia.
    + now rewrite descend_app, E.
Qed.

(** When a key before the last does not resolve, the loop raises what
    the subscription raised and the parser is as it was. *)
Lemma walk_then_interrupted :
  forall final n pre segment post ref i self node e,
    i + len (pre ++ segment :: post) = n ->
    post <> [] ->
    descend (parsed_content self) (ref ++ pre)%list = Ok node ->
    getitem node segment = Raise e ->
    walk_then final n ref (enumerate_from i (pre ++ segment :: post)) self
    = (Raise e, self).
Proof.
  intros final n pre segment post.
  induction pre as [|k pre IH]; intros ref i self node e Hlen Hpost Hd Hg;
    simpl.
  - simpl app in Hlen. rewrite len_cons in Hlen.
    assert (0 < len post).
    { destruct post; [congruence|]. rewrite len_cons.
      pose proof (len_nonneg _ post). lia. }
    replace (i =? n - 1) with false by (symmetry; apply Z.eqb_neq; lia).
    unfold bind. rewrite ref_getitem_run, descend_app.
    rewrite app_nil_r in Hd. rewrite Hd. simpl. now rewrite Hg.
  - simpl app in Hlen. rewrite len_cons in Hlen.
    pose proof (len_nonneg _ (pre ++ segment :: post)%list).
    assert (0 < len (pre ++ segment :: post)%list).
    { unfold len. rewrite length_app. simpl. lia. }
    replace (i =? n - 1) with false by (symmetry; apply Z.eqb_neq; lia).
    unfold bind. rewrite ref_getitem_run.
    replace (ref ++ k :: pre)%list with ((ref ++ [k]) ++ pre)%list in *
      by (now rewrite <- app_assoc).
    rewrite descend_app in Hd.
    destruct (descend (parsed_content self) (ref ++ [k])%list) as [child|e'] eqn:E;
      simpl in Hd; [|discriminate].
    apply (IH (ref ++ [k])%list (i + 1) self node e); auto.
    + lia.
    + now rewrite descend_app, E.
Qed.

(** A loop whose final statement leaves the parser alone when it raises
    leaves the parser alone when it raises. *)
Lemma walk_then_raise_unchanged :
  forall final : path -> string -> M unit,
    (forall ref key self e self',
        final ref key self = (Raise e, self') -> self' = self) ->
    forall enumerated n ref self e self',
      walk_then final n ref enumerated self = (Raise e, self') -> self' = self.
Proof.
  intros final Hfinal.
  induction enumerated as [|[index key] enumerated IH];
    intros n ref self e self' Hrun; simpl in Hrun.
  - discriminate.
  - destruct (index =? n - 1); [eauto|].
    unfold bind in Hrun. rewrite ref_getitem_run in Hrun.
    destruct (descend (parsed_content self) (ref ++ [key])%list); eauto.
    congruence.
Qed.

Lemma ref_setitem_raise_unchanged :
  forall v ref key self e self',
    ref_setitem ref key v self = (Raise e, self') -> self' = self.
Proof.
  intros v ref key self e self'. unfold ref_setitem.
  destruct (mutate_at _ _ _); congruence.
Qed.

Lemma ref_delitem_raise_unchanged :
  forall ref key self e self',
    ref_delitem ref key self = (Raise e, self') -> self' = self.
Proof.
  intros ref key self e self'. unfold ref_delitem.
  destruct (mutate_at _ _ _); congruence.
Qed.

(** *** Mutation at a path *)

Lemma mutate_at_ok :
  forall p tree f node node',
    descend tree p = Ok node ->
    f node = Ok node' ->
    exists tree',
      mutate_at tree p f = Ok tree'
      /\ descend tree' p = Ok node'
      /\ forall q, diverges q p -> descend tree' q = descend tree q.
Proof.
  induction p as [|k p IH]; intros tree f node node' Hd Hf; simpl in *.
  - injection Hd as ->. exists node'. repeat split; auto.
    intros q (common & a & b & q' & p' & _ & Hp & _).
    destruct common; discriminate.
  - destruct (getitem tree k) as [child|e] eqn:Hchild; simpl in Hd;
      [|discriminate].
    destruct (getitem_ok_mapping _ _ _ Hchild) as (d & -> & Hfind).
    destruct (IH child f node node' Hd Hf) as (child' & Hm & Hd' & Hframe).
    simpl. rewrite Hm. simpl.
    exists (VDict (Dict.store d k child')). repeat split.
    + unfold getitem. now rewrite find_store_same.
    + intros q (common & a & b & q' & p' & -> & Hp & Hab).
      destruct common as [|c common]; simpl in *.
      * injection Hp as <- _. unfold getitem.
        rewrite find_store_other by congruence. reflexivity.
      * injection Hp as <- ->. unfold getitem.
        rewrite find_store_same, Hfind. simpl.
        apply Hframe. exists common, a, b, q', p'. auto.
Qed.

Lemma mutate_at_raise :
  forall p tree f node e,
    descend tree p = Ok node ->
    f node = Raise e ->
    mutate_at tree p f = Raise e.
Proof.
  induction p as [|k p IH]; intros tree f node e Hd Hf; simpl in *.
  - now injection Hd as ->.
  - destruct (getitem tree k) as [child|e'] eqn:Hchild; simpl in Hd;
      [|discriminate].
    simpl. now rewrite (IH child f node e Hd Hf).
Qed.

(** A path that parts ways with the path of an entry parts ways with
    the path of its mapping or leads to another entry of that mapping. *)
Lemma diverges_from_entry :
  forall q p last,
    diverges q (p ++ [last])%list ->
    diverges q p \/ exists a q', q = (p ++ a :: q')%list /\ a <> last.
Proof.
  intros q p last (common & a & b & q' & p' & Hq & Hp & Hab).
  destruct (exists_last (l := b :: p')) as (front & x & Hfront);
    [discriminate|].
  rewrite Hfront, app_assoc in Hp. apply app_inj_tail in Hp as [Hp <-].
  destruct front as [|b' front]; simpl in Hfront.
  - injection Hfront as <- ->. right. exists a, q'.
    rewrite app_nil_r in Hp. subst. auto.
  - injection Hfront as <- ->. left.
    exists common, a, b, q', front. auto.
Qed.

(** A subscription that raises does so because the mapping lacks the
    key or because the object is not a mapping. *)
Lemma getitem_raise_kind :
  forall node key e,
    getitem node key = Raise e ->
    (exists d, node = VDict d /\ Dict.find d key = None /\ e = KeyError key)
    \/ (is_mapping node = false /\ exists msg, e = TypeError msg).
Proof.
  intros [s|z|f|b|items|d] key e H; simpl in H;
    try (right; split; [reflexivity|]; injection H as <-; eauto; fail).
  left. exists d. destruct (Dict.find d key); [discriminate|].
  injection H as <-. auto.
Qed.

(** Where a descent fails: at the first key whose subscription raises. *)
Lemma descend_raise_split :
  forall p tree e,
    descend tree p = Raise e ->
    exists pre segment post node,
      p = (pre ++ segment :: post)%list
      /\ descend tree pre = Ok node
      /\ getitem node segment = Raise e.
Proof.
  induction p as [|k p IH]; intros tree e Hd; simpl in Hd.
  - discriminate.
  - destruct (getitem tree k) as [child|e'] eqn:Hchild; simpl in Hd.
    + destruct (IH child e Hd) as (pre & segment & post & node & -> & Hpre & Hg).
      exists (k :: pre), segment, post, node. simpl. rewrite Hchild. auto.
    + injection Hd as ->. exists [], k, p, tree. auto.
Qed.

(** *** set and delete as runs of the loop *)

Lemma set_dotted_run :
  forall key v self indexes,
    contains_char "." key = true ->
    split_on_dot key = Ok indexes ->
    set key v false self
    = (_ <- walk_then (fun ref key => ref_setitem ref key v)
              (len indexes) [] (enumerate indexes) ;;
       ret true)%method self.
Proof.
  intros key v self indexes Hdot Hsplit.
  unfold set, bind, lift. rewrite Hdot, Hsplit.
  now rewrite set_loop_walk_then.
Qed.

Lemma delete_run :
  forall key self segments,
    key_path key = Ok segments ->
    delete key false self
    = (_ <- walk_then ref_delitem (len segments) [] (enumerate segments) ;;
       ret true)%method self.
Proof.
  intros key self segments Hpath.
  unfold key_path in Hpath. unfold delete, bind, lift.
  destruct (contains_char "." key).
  - rewrite Hpath. now rewrite delete_loop_walk_then.
  - injection Hpath as <-. reflexivity.
Qed.

(** *** set *)

(** C3, as the code has it: for a dotted key whose segments before the
    last resolve to mappings, [set] walks those segments to the parent
    mapping, assigns the value under the last segment there, returns
    [True], and leaves every node off the path as it was, so that [get]
    then answers the value for the key; if a segment before the last is
    absent from the mapping reached, [set] fails with the [KeyError] of
    that segment and creates nothing. *)
Theorem set_assigns_at_last_segment :
  forall (self : TomlParser) (key : string) (v : value),
    contains_char "." key = true ->
    (forall pre last d,
        split_on_dot key = Ok (pre ++ [last])%list ->
        descend (parsed_content self) pre = Ok (VDict d) ->
        exists self',
          set key v false self = (Ok true, self')
          /\ descend (parsed_content self') pre
             = Ok (VDict (Dict.store d last v))
          /\ descend (parsed_content self') (pre ++ [last])%list = Ok v
          /\ (forall q,
                diverges q (pre ++ [last])%list ->
                descend (parsed_content self') q
                = descend (parsed_content self) q)
          /\ get self' key false false = Ok v)
    /\ (forall pre segment post d,
          split_on_dot key = Ok (pre ++ segment :: post)%list ->
          post <> [] ->
          descend (parsed_content self) pre = Ok (VDict d) ->
          Dict.find d segment = None ->
          set key v false self = (Raise (KeyError segment), self)).
Proof.
  intros self key v Hdot. split.
  - intros pre last d Hsplit Hd.
    rewrite (set_dotted_run _ _ _ _ Hdot Hsplit). unfold bind at 1.
    rewrite (walk_then_reaches_parent _ _ pre last [] 0 self (VDict d));
      [|reflexivity | exact Hd].
    simpl app. unfold ref_setitem.
    destruct (mutate_at_ok pre (parsed_content self)
                (fun obj => setitem obj last v) (VDict d)
                (VDict (Dict.store d last v)) Hd eq_refl)
      as (tree' & Hm & Hd' & Hframe).
    rewrite Hm. exists (mkTomlParser tree'). simpl.
    assert (Hlast : descend tree' (pre ++ [last])%list = Ok v).
    { rewrite descend_app, Hd'. simpl. now rewrite find_store_same. }
    split; [reflexivity|]. split; [exact Hd'|]. split; [exact Hlast|]. split.
    + intros q Hq.
      destruct (diverges_from_entry _ _ _ Hq) as [Hp|(a & q' & -> & Ha)];
        [now apply Hframe|].
      rewrite !descend_app, Hd', Hd. simpl.
      rewrite find_store_other by congruence. reflexivity.
    + assert (Hpath : key_path key = Ok (pre ++ [last])%list)
        by (unfold key_path; now rewrite Hdot).
      pose proof (get_key_path (mkTomlParser tree') key _ Hpath) as Hget.
      simpl in Hget. now rewrite Hlast in Hget.
  - intros pre segment post d Hsplit Hpost Hd Hfind.
    rewrite (set_dotted_run _ _ _ _ Hdot Hsplit). unfold bind at 1.
    rewrite (walk_then_interrupted _ _ pre segment post [] 0 self (VDict d)
               (KeyError segment)); auto.
    simpl. now rewrite Hfind.
Qed.

(** *** delete *)

(** When the path of the key does not resolve, [delete] raises and the
    parser is as it was: the [KeyError] of the segment a mapping lacks, a
    [TypeError] when the node reached is not a mapping. *)
Lemma delete_unresolved_path :
  forall self key segments e,
    key_path key = Ok segments ->
    descend (parsed_content self) segments = Raise e ->
    exists e',
      delete key false self = (Raise e', self)
      /\ match e with
         | KeyError segment => e' = KeyError segment
         | _ => exists msg, e' = TypeError msg
         end.
Proof.
  intros self key segments e Hpath Hraise.
  destruct (descend_raise_split _ _ _ Hraise)
    as (pre & segment & post & node & -> & Hd & Hg).
  rewrite (delete_run _ _ _ Hpath). unfold bind at 1.
  destruct post as [|next post].
  - rewrite (walk_then_reaches_parent _ _ pre segment [] 0 self node);
      [|reflexivity | exact Hd].
    simpl app. unfold ref_delitem.
    destruct (getitem_raise_kind _ _ _ Hg)
      as [(d & -> & Hfind & ->)|(Hnode & msg & ->)].
    + rewrite (mutate_at_raise pre _ _ (VDict d) (KeyError segment) Hd);
        [eauto|]. simpl. now rewrite Hfind.
    + destruct node as [s|z|f|b|items|d]; try discriminate;
        erewrite (mutate_at_raise pre _ _ _ _ Hd) by reflexivity; eauto.
  - rewrite (walk_then_interrupted _ _ pre segment (next :: post) [] 0
               self node e); auto; try discriminate.
    exists e. split; [reflexivity|].
    destruct (getitem_raise_kind _ _ _ Hg)
      as [(d & _ & _ & ->)|(_ & msg & ->)]; eauto.
Qed.

(** C4, as the code has it: with [all] false, when the key or dotted
    path addresses an entry, [delete] removes that entry from its
    mapping, returns [True] and leaves every node off the path as it
    was; [get] and a second [delete] then fail with the [KeyError] of the
    last segment.  When the path does not resolve, [delete] does not
    return and the tree is as it was: it fails with the [KeyError] of the
    segment the mapping reached lacks, and with a [TypeError] when the
    node reached is not a mapping. *)
Theorem delete_removes_entry_or_fails :
  forall (self : TomlParser) (key : string),
    (forall pre last x,
        key_path key = Ok (pre ++ [last])%list ->
        descend (parsed_content self) (pre ++ [last])%list = Ok x ->
        exists d self',
          descend (parsed_content self) pre = Ok (VDict d)
          /\ delete key false self = (Ok true, self')
          /\ descend (parsed_content self') pre
             = Ok (VDict (Dict.remove d last))
          /\ descend (parsed_content self') (pre ++ [last])%list
             = Raise (KeyError last)
          /\ (forall q,
                diverges q (pre ++ [last])%list ->
                descend (parsed_content self') q
                = descend (parsed_content self) q)
          /\ get self' key false false = Raise (KeyError last)
          /\ delete key false self' = (Raise (KeyError last), self'))
    /\ (forall segments e,
          key_path key = Ok segments ->
          descend (parsed_content self) segments = Raise e ->
          exists e',
            delete key false self = (Raise e', self)
            /\ match e with
               | KeyError segment => e' = KeyError segment
               | _ => exists msg, e' = TypeError msg
               end).
Proof.
  intros self key. split; [|apply delete_unresolved_path].
  intros pre last x Hpath Hx.
  rewrite descend_app in Hx.
  destruct (descend (parsed_content self) pre) as [parent|e] eqn:Hd;
    simpl in Hx; [|discriminate].
  destruct (getitem parent last) as [x'|e] eqn:Hg; simpl in Hx;
    [|discriminate].
  destruct (getitem_ok_mapping _ _ _ Hg) as (d & -> & Hfind).
  assert (Hdel : delitem (VDict d) last = Ok (VDict (Dict.remove d last)))
    by (simpl; now rewrite Hfind).
  destruct (mutate_at_ok pre (parsed_content self)
              (fun obj => delitem obj last) (VDict d) _ Hd Hdel)
    as (tree' & Hm & Hd' & Hframe).
  assert (Hgone : descend tree' (pre ++ [last])%list = Raise (KeyError last)).
  { rewrite descend_app, Hd'. simpl. now rewrite find_remove_same. }
  exists d, (mkTomlParser tree'). split; [reflexivity|].
  rewrite (delete_run _ _ _ Hpath). unfold bind at 1.
  rewrite (walk_then_reaches_parent _ _ pre last [] 0 self (VDict d));
    [|reflexivity | exact Hd].
  simpl app. unfold ref_delitem. rewrite Hm. simpl.
  split; [reflexivity|]. split; [exact Hd'|]. split; [exact Hgone|].
  split; [|split].
  - intros q Hq.
    destruct (diverges_from_entry _ _ _ Hq) as [Hp|(a & q' & -> & Ha)];
      [now apply Hframe|].
    rewrite !descend_app, Hd', Hd. simpl.
    rewrite find_remove_other by congruence. reflexivity.
  - pose proof (get_key_path (mkTomlParser tree') key _ Hpath) as Hget.
    simpl in Hget. now rewrite Hgone in Hget.
  - destruct (delete_unresolved_path (mkTomlParser tree') key _ _ Hpath Hgone)
      as (e' & Hrun & ->).
    exact Hrun.
Qed.

(** *** Failures of set and delete *)

(** C10: with [all] false and a dotted key, [set] and [delete] mutate
    nothing before the last segment: when the segments before the last
    resolve, the call is the final assignment or deletion alone, run on
    the parser as it was before the call; when a segment before the last
    is missing or the node reached cannot be subscripted, the call
    raises and the parser is as it was; and whenever either call raises,
    the parser is as it was. *)
Theorem set_delete_failure_leaves_tree :
  forall (self : TomlParser) (key : string) (v : value),
    contains_char "." key = true ->
    (forall e self', set key v false self = (Raise e, self') -> self' = self)
    /\ (forall e self', delete key false self = (Raise e, self') -> self' = self)
    /\ (forall pre last node,
          split_on_dot key = Ok (pre ++ [last])%list ->
          descend (parsed_content self) pre = Ok node ->
          set key v false self
          = (_ <- ref_setitem pre last v ;; ret true)%method self
          /\ delete key false self
             = (_ <- ref_delitem pre last ;; ret true)%method self)
    /\ (forall pre segment post node e,
          split_on_dot key = Ok (pre ++ segment :: post)%list ->
          post <> [] ->
          descend (parsed_content self) pre = Ok node ->
          getitem node segment = Raise e ->
          set key v false self = (Raise e, self)
          /\ delete key false self = (Raise e, self)).
Proof.
  intros self key v Hdot.
  assert (Hpath : key_path key = split_on_dot key)
    by (unfold key_path; now rewrite Hdot).
  split; [|split; [|split]].
  - intros e self' Hrun.
    destruct (split_on_dot key) as [indexes|e0] eqn:Hsplit.
    + rewrite (set_dotted_run _ _ _ _ Hdot Hsplit) in Hrun.
      unfold bind at 1 in Hrun.
      destruct (walk_then _ _ _ _ self) as [[u|e1] self1] eqn:Hwalk.
      * discriminate.
      * injection Hrun as _ <-.
        eapply walk_then_raise_unchanged; [|exact Hwalk].
        intros ref k s e2 s'. apply ref_setitem_raise_unchanged.
    + unfold set, bind, lift in Hrun. rewrite Hdot, Hsplit in Hrun.
      congruence.
  - intros e self' Hrun.
    destruct (split_on_dot key) as [indexes|e0] eqn:Hsplit.
    + rewrite (delete_run _ _ _ Hpath) in Hrun.
      unfold bind at 1 in Hrun.
      destruct (walk_then _ _ _ _ self) as [[u|e1] self1] eqn:Hwalk.
      * discriminate.
      * injection Hrun as _ <-.
        eapply walk_then_raise_unchanged; [|exact Hwalk].
        apply ref_delitem_raise_unchanged.
    + unfold delete, bind, lift in Hrun. rewrite Hdot, Hsplit in Hrun.
      congruence.
  - intros pre last node Hsplit Hd. rewrite Hsplit in Hpath. split.
    + rewrite (set_dotted_run _ _ _ _ Hdot Hsplit). unfold bind.
      now rewrite (walk_then_reaches_parent _ _ pre last [] 0 self node).
    + rewrite (delete_run _ _ _ Hpath). unfold bind.
      now rewrite (walk_then_reaches_parent _ _ pre last [] 0 self node).
  - intros pre segment post node e Hsplit Hpost Hd Hg.
    rewrite Hsplit in Hpath. split.
    + rewrite (set_dotted_run _ _ _ _ Hdot Hsplit). unfold bind at 1.
      now rewrite (walk_then_interrupted _ _ pre segment post [] 0 self node e).
    + rewrite (delete_run _ _ _ Hpath). unfold bind at 1.
      now rewrite (walk_then_interrupted _ _ pre segment post [] 0 self node e).
Qed.

(** *** Further lemmas on dicts and on mutation at a path *)

Lemma store_store :
  forall d k v1 v2, Dict.store (Dict.store d k v1) k v2 = Dict.store d k v2.
Proof.
  induction d as [|[k' v'] d IH]; intros k v1 v2; simpl.
  - now rewrite String.eqb_refl.
  - destruct (String.eqb k' k) eqn:E; simpl; rewrite E;
      [reflexivity | now rewrite IH].
Qed.

Lemma store_found :
  forall d k v, Dict.find d k = Some v -> Dict.store d k v = d.
Proof.
  induction d as [|[k' v'] d IH]; intros k v Hfind; simpl in *.
  - discriminate.
  - destruct (String.eqb k' k); [congruence | f_equal; auto].
Qed.

Lemma remove_store_absent :
  forall d k v, Dict.find d k = None -> Dict.remove (Dict.store d k v) k = d.
Proof.
  induction d as [|[k' v'] d IH]; intros k v Hfind; simpl in *.
  - now rewrite String.eqb_refl.
  - destruct (String.eqb k' k) eqn:E; [discriminate|].
    simpl. rewrite E. f_equal. auto.
Qed.

Lemma getitem_non_mapping :
  forall node key,
    is_mapping node = false -> exists msg, getitem node key = Raise (TypeError msg).
Proof.
  intros [s|z|f|b|items|d] key H; simpl in *; try discriminate; eauto.
Qed.

Lemma setitem_non_mapping :
  forall node key v,
    is_mapping node = false ->
    exists msg, setitem node key v = Raise (TypeError msg).
Proof.
  intros [s|z|f|b|items|d] key v H; simpl in *; try discriminate; eauto.
Qed.

Lemma setitem_ok_mapping :
  forall node key v node',
    setitem node key v = Ok node' ->
    exists d, node = VDict d /\ node' = VDict (Dict.store d key v).
Proof.
  intros [s|z|f|b|items|d] key v node' H; simpl in H; try discriminate.
  injection H as <-. eauto.
Qed.

(** Mutating where [f] and [g] do the same to the node is the same. *)
Lemma mutate_at_ext :
  forall p tree f g node,
    descend tree p = Ok node ->
    f node = g node ->
    mutate_at tree p f = mutate_at tree p g.
Proof.
  induction p as [|k p IH]; intros tree f g node Hd Hfg; simpl in *.
  - now injection Hd as ->.
  - destruct (getitem tree k) as [child|e]; simpl in *; [|discriminate].
    now rewrite (IH child f g node Hd Hfg).
Qed.

(** Two mutations of the same node, one after the other, are one. *)
Lemma mutate_at_then :
  forall p tree f g node tree1,
    descend tree p = Ok node ->
    mutate_at tree p f = Ok tree1 ->
    mutate_at tree1 p g
    = mutate_at tree p (fun obj => (obj1 <- f obj ;; g obj1)%result).
Proof.
  induction p as [|k p IH]; intros tree f g node tree1 Hd Hm; simpl in *.
  - now rewrite Hm.
  - destruct (getitem tree k) as [child|e] eqn:Hchild; simpl in *;
      [|discriminate].
    destruct (getitem_ok_mapping _ _ _ Hchild) as (d & -> & Hfind).
    destruct (mutate_at child p f) as [child1|e] eqn:Hm1; simpl in Hm;
      [|discriminate].
    injection Hm as <-. unfold getitem at 1. rewrite find_store_same. simpl.
    rewrite (IH child f g node child1 Hd Hm1). clear Hm1.
    destruct (mutate_at child p (fun obj => (obj1 <- f obj ;; g obj1)%result))
      as [child2|e]; simpl; [|reflexivity].
    now rewrite store_store.
Qed.

(** A mutation that leaves the node as it is leaves the tree as it is. *)
Lemma mutate_at_same :
  forall p tree f node,
    descend tree p = Ok node ->
    f node = Ok node ->
    mutate_at tree p f = Ok tree.
Proof.
  induction p as [|k p IH]; intros tree f node Hd Hf; simpl in *.
  - now injection Hd as ->.
  - destruct (getitem tree k) as [child|e] eqn:Hchild; simpl in *;
      [|discriminate].
    destruct (getitem_ok_mapping _ _ _ Hchild) as (d & -> & Hfind).
    rewrite (IH child f node Hd Hf). simpl.
    now rewrite (store_found _ _ _ Hfind).
Qed.

Lemma mutate_at_ok_node :
  forall p tree f node tree',
    descend tree p = Ok node ->
    mutate_at tree p f = Ok tree' ->
    exists node', f node = Ok node' /\ descend tree' p = Ok node'.
Proof.
  intros p tree f node tree' Hd Hm.
  destruct (f node) as [node'|e] eqn:Hf.
  - destruct (mutate_at_ok p tree f node node' Hd Hf) as (t & Ht & Hd' & _).
    exists node'. split; [reflexivity|]. congruence.
  - rewrite (mutate_at_raise p tree f node e Hd Hf) in Hm. discriminate.
Qed.

Lemma lookup_path_ok_descend :
  forall segments tree node,
    lookup_path tree segments = Ok node -> descend tree segments = Ok node.
Proof.
  induction segments as [|segment segments IH]; intros tree node Hl;
    simpl in *.
  - exact Hl.
  - destruct tree as [s|z|f|b|items|d]; try discriminate. simpl.
    destruct (Dict.find d segment) as [child|]; simpl; [auto | discriminate].
Qed.

Lemma lookup_path_raise_kind :
  forall segments tree e,
    lookup_path tree segments = Raise e ->
    (exists k, e = KeyError k) \/ (exists text, e = ParsingError (Message text)).
Proof.
  induction segments as [|segment segments IH]; intros tree e Hl; simpl in *.
  - discriminate.
  - destruct tree as [s|z|f|b|items|d];
      try (injection Hl as <-; right; eauto; fail).
    destruct (Dict.find d segment) as [child|]; [eauto|].
    injection Hl as <-. left. eauto.
Qed.

(** *** The outcome of set and delete *)

Lemma set_run :
  forall key v self segments,
    key_path key = Ok segments ->
    set key v false self
    = (_ <- walk_then (fun ref key => ref_setitem ref key v)
              (len segments) [] (enumerate segments) ;;
       ret true)%method self.
Proof.
  intros key v self segments Hpath.
  unfold key_path in Hpath. unfold set, bind, lift.
  destruct (contains_char "." key).
  - rewrite Hpath. now rewrite set_loop_walk_then.
  - injection Hpath as <-. reflexivity.
Qed.

Lemma set_key_path_raise :
  forall key v self e,
    key_path key = Raise e -> set key v false self = (Raise e, self).
Proof.
  intros key v self e Hpath. unfold key_path in Hpath. unfold set, bind, lift.
  destruct (contains_char "." key); [now rewrite Hpath | discriminate].
Qed.

(** The walk to the parent raises what the descent to the parent raises. *)
Lemma walk_then_parent_raise :
  forall final pre last self e,
    descend (parsed_content self) pre = Raise e ->
    walk_then final (len (pre ++ [last])%list) [] (enumerate (pre ++ [last])%list)
      self
    = (Raise e, self).
Proof.
  intros final pre last self e Hraise.
  destruct (descend_raise_split _ _ _ Hraise)
    as (pre' & segment & post & node & -> & Hd & Hg).
  rewrite <- app_assoc. simpl app.
  apply (walk_then_interrupted final _ pre' segment (post ++ [last])%list
           [] 0 self node e); auto.
  destruct post; discriminate.
Qed.

Lemma set_outcome :
  forall key v self pre last,
    key_path key = Ok (pre ++ [last])%list ->
    set key v false self
    = match descend (parsed_content self) pre with
      | Raise e => (Raise e, self)
      | Ok _ =>
          match mutate_at (parsed_content self) pre
                  (fun obj => setitem obj last v) with
          | Ok content => (Ok true, mkTomlParser content)
          | Raise e => (Raise e, self)
          end
      end.
Proof.
  intros key v self pre last Hpath.
  rewrite (set_run _ _ _ _ Hpath). unfold bind at 1.
  destruct (descend (parsed_content self) pre) as [node|e] eqn:Hd.
  - rewrite (walk_then_reaches_parent _ _ pre last [] 0 self node);
      [|reflexivity | exact Hd].
    simpl app. unfold ref_setitem.
    destruct (mutate_at _ _ _); reflexivity.
  - now rewrite (walk_then_parent_raise _ pre last self e Hd).
Qed.

Lemma delete_outcome :
  forall key self pre last,
    key_path key = Ok (pre ++ [last])%list ->
    delete key false self
    = match descend (parsed_content self) pre with
      | Raise e => (Raise e, self)
      | Ok _ =>
          match mutate_at (parsed_content self) pre
                  (fun obj => delitem obj last) with
          | Ok content => (Ok true, mkTomlParser content)
          | Raise e => (Raise e, self)
          end
      end.
Proof.
  intros key self pre last Hpath.
  rewrite (delete_run _ _ _ Hpath). unfold bind at 1.
  destruct (descend (parsed_content self) pre) as [node|e] eqn:Hd.
  - rewrite (walk_then_reaches_parent _ _ pre last [] 0 self node);
      [|reflexivity | exact Hd].
    simpl app. unfold ref_delitem.
    destruct (mutate_at _ _ _); reflexivity.
  - now rewrite (walk_then_parent_raise _ pre last self e Hd).
Qed.

(** What a [set] that returned did: the parent was a mapping and the
    content after is the content before with the entry stored. *)
Lemma set_returned :
  forall key v self pre last self',
    key_path key = Ok (pre ++ [last])%list ->
    set key v false self = (Ok true, self') ->
    exists d,
      descend (parsed_content self) pre = Ok (VDict d)
      /\ mutate_at (parsed_content self) pre (fun obj => setitem obj last v)
         = Ok (parsed_content self')
      /\ descend (parsed_content self') pre = Ok (VDict (Dict.store d last v)).
Proof.
  intros key v self pre last self' Hpath Hset.
  rewrite (set_outcome _ _ _ _ _ Hpath) in Hset.
  destruct (descend (parsed_content self) pre) as [node|e] eqn:Hd;
    [|discriminate].
  destruct (mutate_at _ _ _) as [content|e] eqn:Hm; [|discriminate].
  injection Hset as <-. simpl.
  destruct (mutate_at_ok_node _ _ _ _ _ Hd Hm) as (node' & Hf & Hd').
  destruct (setitem_ok_mapping _ _ _ _ Hf) as (d & -> & ->).
  exists d. auto.
Qed.

(** *** set, delete and get together *)

(** X1: when [set] returns for a key, plain or dotted, [get] of the same
    key on the parser it leaves answers the value that was set, and its
    [parse_value] when [parse_types] is set. *)
Theorem set_then_get_returns_value :
  forall (self : TomlParser) (key : string) (v : value)
         (pre : list string) (last : string) (self' : TomlParser),
    key_path key = Ok (pre ++ [last])%list ->
    set key v false self = (Ok true, self') ->
    get self' key false false = Ok v
    /\ get self' key true false = Ok (parse_value v).
Proof.
  intros self key v pre last self' Hpath Hset.
  destruct (set_returned _ _ _ _ _ _ Hpath Hset) as (d & Hd & Hm & Hd').
  assert (Hlast : descend (parsed_content self') (pre ++ [last])%list = Ok v).
  { rewrite descend_app, Hd'. simpl. now rewrite find_store_same. }
  pose proof (get_key_path self' key _ Hpath) as Hget.
  rewrite Hlast in Hget. split; [exact Hget|].
  rewrite get_lookup in *.
  destruct (lookup (parsed_content self') key false) as [result|e];
    simpl in *; congruence.
Qed.

(** X2: the last write wins.  When [set] has returned for a key, a second
    [set] of the same key has the outcome, and leaves the parser, it would
    have had without the first. *)
Theorem set_last_write_wins :
  forall (self : TomlParser) (key : string) (v1 v2 : value)
         (self1 : TomlParser),
    set key v1 false self = (Ok true, self1) ->
    set key v2 false self1 = set key v2 false self.
Proof.
  intros self key v1 v2 self1 Hset.
  destruct (key_path key) as [segments|e] eqn:Hpath.
  - destruct segments as [|segment segments].
    + rewrite (set_run _ _ _ _ Hpath) in Hset. simpl in Hset.
      injection Hset as <-. reflexivity.
    + destruct (exists_last (l := segment :: segments))
        as (pre & last & Heq); [discriminate|].
      rewrite Heq in Hpath.
      destruct (set_returned _ _ _ _ _ _ Hpath Hset) as (d & Hd & Hm & Hd').
      rewrite (set_outcome key v2 self1 pre last Hpath),
              (set_outcome key v2 self pre last Hpath), Hd', Hd.
      rewrite (mutate_at_then pre _ _ _ _ _ Hd Hm).
      rewrite (mutate_at_ext pre (parsed_content self) _
                 (fun obj => setitem obj last v2) (VDict d) Hd)
        by (simpl; now rewrite store_store).
      destruct (mutate_at_ok pre (parsed_content self)
                  (fun obj => setitem obj last v2) (VDict d) _ Hd eq_refl)
        as (tree2 & Hm2 & _).
      now rewrite Hm2.
  - rewrite (set_key_path_raise _ _ _ _ Hpath) in Hset. discriminate.
Qed.

(** X3: when a key is not there, so that [delete] raises, and [set]
    returns for it, [delete] after that [set] returns and leaves the
    parser exactly as it was before the [set]. *)
Theorem set_then_delete_restores :
  forall (self : TomlParser) (key : string) (v : value)
         (self1 : TomlParser) (e : exn) (self0 : TomlParser),
    set key v false self = (Ok true, self1) ->
    delete key false self = (Raise e, self0) ->
    delete key false self1 = (Ok true, self).
Proof.
  intros self key v self1 e self0 Hset Hdel.
  destruct (key_path key) as [segments|e0] eqn:Hpath.
  - destruct segments as [|segment segments].
    + rewrite (delete_run _ _ _ Hpath) in Hdel. simpl in Hdel. discriminate.
    + destruct (exists_last (l := segment :: segments))
        as (pre & last & Heq); [discriminate|].
      rewrite Heq in Hpath.
      destruct (set_returned _ _ _ _ _ _ Hpath Hset) as (d & Hd & Hm & Hd').
      rewrite (delete_outcome _ _ _ _ Hpath), Hd in Hdel.
      assert (Hfind : Dict.find d last = None).
      { destruct (Dict.find d last) as [x|] eqn:Hfind; [|reflexivity].
        destruct (mutate_at_ok pre (parsed_content self)
                    (fun obj => delitem obj last) (VDict d)
                    (VDict (Dict.remove d last)) Hd)
          as (tree' & Hm' & _); [simpl; now rewrite Hfind|].
        rewrite Hm' in Hdel. discriminate. }
      rewrite (delete_outcome _ _ _ _ Hpath), Hd'.
      rewrite (mutate_at_then pre _ _ _ _ _ Hd Hm).
      rewrite (mutate_at_same pre (parsed_content self) _ (VDict d) Hd).
      * destruct self. reflexivity.
      * simpl. rewrite find_store_same.
        now rewrite (remove_store_absent _ _ _ Hfind).
  - rewrite (set_key_path_raise _ _ _ _ Hpath) in Hset. discriminate.
Qed.

(** X4: a dotted key cannot address into a sequence.  With [all] false,
    if the descent reaches a list while a segment is still to be looked
    up, [get] fails with the [ParsingError] that names that segment. *)
Theorem get_sequence_node_parsing_error :
  forall (self : TomlParser) (key : string) (parse_types : bool)
         (pre : list string) (segment : string) (post : list string)
         (items : list value),
    contains_char "." key = true ->
    split_on_dot key = Ok (pre ++ segment :: post)%list ->
    descend (parsed_content self) pre = Ok (VList items) ->
    get self key parse_types false
    = Raise (ParsingError (Message
        ("Cannot get " ++ segment ++ " because " ++ segment ++
         " is not subscriptable."))).
Proof.
  intros self key parse_types pre segment post items Hdot Hsplit Hd.
  destruct (getitem_non_mapping (VList items) segment eq_refl) as [msg Hmsg].
  unfold get. rewrite Hdot, Hsplit. simpl.
  now rewrite (get_loop_interrupted pre segment post key None _ _ _ Hd Hmsg).
Qed.

(** X5: with [all] false the outcome of [set] is decided by the node the
    segments before the last lead to.  If it is a mapping, [set] returns
    [True] and the mapping holds the value under the last segment; if it
    is any other node, [set] raises a [TypeError]; if the descent to it
    raises, [set] raises the same exception.  When [set] raises, the
    parser is as it was. *)
Theorem set_outcome_by_parent :
  forall (self : TomlParser) (key : string) (v : value)
         (pre : list string) (last : string),
    key_path key = Ok (pre ++ [last])%list ->
    match descend (parsed_content self) pre with
    | Ok (VDict d) =>
        exists self',
          set key v false self = (Ok true, self')
          /\ descend (parsed_content self') pre
             = Ok (VDict (Dict.store d last v))
    | Ok _ => exists msg, set key v false self = (Raise (TypeError msg), self)
    | Raise e => set key v false self = (Raise e, self)
    end.
Proof.
  intros self key v pre last Hpath.
  rewrite (set_outcome _ _ _ _ _ Hpath).
  destruct (descend (parsed_content self) pre) as [node|e] eqn:Hd;
    [|reflexivity].
  destruct node as [s|z|f|b|items|d];
    try (match goal with
         | Hd : descend _ _ = Ok ?node |- _ =>
             destruct (setitem_non_mapping node last v eq_refl) as [msg Hmsg];
             rewrite (mutate_at_raise pre _ _ _ _ Hd Hmsg); eauto
         end; fail).
  destruct (mutate_at_ok pre (parsed_content self)
              (fun obj => setitem obj last v) (VDict d) _ Hd eq_refl)
    as (tree' & Hm & Hd' & _).
  rewrite Hm. exists (mkTomlParser tree'). auto.
Qed.

(** X7: with [all] false and a dotted key, no [TypeError] leaves [get]:
    whenever it raises, it raises the [KeyError] of a segment or a
    [ParsingError] with a message. *)
Theorem get_dotted_never_type_error :
  forall (self : TomlParser) (key : string) (parse_types : bool)
         (segments : list string),
    contains_char "." key = true ->
    split_on_dot key = Ok segments ->
    (forall msg, get self key parse_types false <> Raise (TypeError msg))
    /\ (forall e,
          get self key parse_types false = Raise e ->
          (exists k, e = KeyError k)
          \/ (exists text, e = ParsingError (Message text))).
Proof.
  intros self key parse_types segments Hdot Hsplit.
  assert (Hkind : forall e,
             get self key parse_types false = Raise e ->
             (exists k, e = KeyError k)
             \/ (exists text, e = ParsingError (Message text))).
  { intros e Hget. rewrite get_lookup in Hget. unfold lookup in Hget.
    rewrite Hdot, Hsplit in Hget. simpl in Hget.
    destruct (lookup_path (parsed_content self) segments) as [node|e'] eqn:Hl;
      simpl in Hget; [discriminate|].
    injection Hget as <-. exact (lookup_path_raise_kind _ _ _ Hl). }
  split; [|exact Hkind].
  intros msg Hget.
  destruct (Hkind _ Hget) as [[k Hk]|[text Htext]]; discriminate.
Qed.

(** X8: with [all] and [parse_types] false, [get] answers a node for a
    key exactly when subscripting the parsed content with the segments of
    the key, one after the other, finds that node. *)
Theorem get_finds_what_subscription_finds :
  forall (self : TomlParser) (key : string) (segments : list string)
         (node : value),
    key_path key = Ok segments ->
    (get self key false false = Ok node
     <-> descend (parsed_content self) segments = Ok node).
Proof.
  intros self key segments node Hpath. split.
  - intros Hget. rewrite get_lookup in Hget. unfold lookup in Hget.
    unfold key_path in Hpath.
    destruct (contains_char "." key).
    + rewrite Hpath in Hget. simpl in Hget.
      destruct (lookup_path (parsed_content self) segments) as [result|e]
        eqn:Hl; simpl in Hget; [|discriminate].
      injection Hget as <-. now apply lookup_path_ok_descend.
    + injection Hpath as <-. simpl.
      destruct (getitem (parsed_content self) key); simpl in *; congruence.
  - intros Hd. pose proof (get_key_path self key _ Hpath) as Hget.
    now rewrite Hd in Hget.
Qed.

Lemma descend_raise_kind :
  forall p tree e,
    descend tree p = Raise e ->
    (exists k, e = KeyError k) \/ (exists msg, e = TypeError msg).
Proof.
  intros p tree e Hraise.
  destruct (descend_raise_split _ _ _ Hraise)
    as (pre & segment & post & node & _ & _ & Hg).
  destruct (getitem_raise_kind _ _ _ Hg)
    as [(d & _ & _ & ->)|(_ & msg & ->)]; eauto.
Qed.

Lemma setitem_raise_kind :
  forall node key v e,
    setitem node key v = Raise e -> exists msg, e = TypeError msg.
Proof.
  intros [s|z|f|b|items|d] key v e H; simpl in H; try discriminate;
    injection H as <-; eauto.
Qed.

Lemma delitem_raise_kind :
  forall node key e,
    delitem node key = Raise e ->
    (exists k, e = KeyError k) \/ (exists msg, e = TypeError msg).
Proof.
  intros [s|z|f|b|items|d] key e H; simpl in H;
    try (injection H as <-; right; eauto; fail).
  destruct (Dict.find d key); [discriminate|].
  injection H as <-. left. eauto.
Qed.

(** When the descent to the node succeeds, a mutation at the path raises
    only what the mutation of the node raises. *)
Lemma mutate_at_raise_node :
  forall p tree f node e,
    descend tree p = Ok node ->
    mutate_at tree p f = Raise e ->
    f node = Raise e.
Proof.
  intros p tree f node e Hd Hm.
  destruct (f node) as [node'|e'] eqn:Hf.
  - destruct (mutate_at_ok p tree f node node' Hd Hf) as (t & Ht & _).
    congruence.
  - rewrite (mutate_at_raise p tree f node e' Hd Hf) in Hm. congruence.
Qed.

(** X9: with [all] false, whatever [set] or [delete] raises for a key is
    a [KeyError] or a [TypeError]: unlike [get], they turn no failure of
    the path into a [ParsingError]. *)
Theorem set_delete_raise_key_or_type_error :
  forall (self : TomlParser) (key : string) (v : value)
         (segments : list string) (e : exn) (self' : TomlParser),
    key_path key = Ok segments ->
    (set key v false self = (Raise e, self') ->
     (exists k, e = KeyError k) \/ (exists msg, e = TypeError msg))
    /\ (delete key false self = (Raise e, self') ->
        (exists k, e = KeyError k) \/ (exists msg, e = TypeError msg)).
Proof.
  intros self key v segments e self' Hpath.
  destruct segments as [|segment segments].
  - split; intros Hrun.
    + rewrite (set_run _ _ _ _ Hpath) in Hrun. simpl in Hrun. discriminate.
    + rewrite (delete_run _ _ _ Hpath) in Hrun. simpl in Hrun. discriminate.
  - destruct (exists_last (l := segment :: segments))
      as (pre & last & Heq); [discriminate|].
    rewrite Heq in Hpath. split; intros Hrun.
    + rewrite (set_outcome _ _ _ _ _ Hpath) in Hrun.
      destruct (descend (parsed_content self) pre) as [node|e0] eqn:Hd.
      * destruct (mutate_at _ _ _) as [content|e1] eqn:Hm; [discriminate|].
        injection Hrun as <- _.
        destruct (setitem_raise_kind _ _ _ _
                    (mutate_at_raise_node _ _ _ _ _ Hd Hm)); eauto.
      * injection Hrun as <- _. exact (descend_raise_kind _ _ _ Hd).
    + rewrite (delete_outcome _ _ _ _ Hpath) in Hrun.
      destruct (descend (parsed_content self) pre) as [node|e0] eqn:Hd.
      * destruct (mutate_at _ _ _) as [content|e1] eqn:Hm; [discriminate|].
        injection Hrun as <- _.
        exact (delitem_raise_kind _ _ _
                 (mutate_at_raise_node _ _ _ _ _ Hd Hm)).
      * injection Hrun as <- _. exact (descend_raise_kind _ _ _ Hd).
Qed.

End Adapter.

(** ** The theorems at work on the sample document *)

(** C2 on the sample: "calendar" is the integer 5, so the lookup of
    "missing" in it is where the descent fails. *)
Lemma get_scalar_node_parsing_error_witness :
  get sample_float_of_string sample "calendar.missing" false false
  = Raise (ParsingError (Message
      "Cannot get missing because missing is not subscriptable.")).
Proof.
  apply (get_scalar_node_parsing_error sample_float_of_string sample
           "calendar.missing" false ["calendar"] "missing" [] (VInt 5));
    reflexivity.
Defined.

(** C9 on the sample: the mapping "header_one" has no key "blah". *)
Lemma get_absent_segment_key_error_witness :
  get sample_float_of_string sample "header_one.blah" false false
  = Raise (KeyError "blah").
Proof.
  apply (get_absent_segment_key_error sample_float_of_string sample
           "header_one.blah" false ["header_one"] "blah" []
           [("number_key", VInt 5); ("string_key", VStr "0")]);
    reflexivity.
Defined.

(** C6 on the sample: the three routes. *)
Lemma get_routes_by_key_shape_witness :
  get sample_float_of_string sample "number_key" false true = Ok (VList [VInt 5])
  /\ get sample_float_of_string sample "header_one.number_key" false false
     = Ok (VInt 5)
  /\ get sample_float_of_string sample "calendar" false false = Ok (VInt 5)
  /\ get sample_float_of_string sample "absent" false false
     = Raise (KeyError "absent").
Proof.
  split; [|split; [|split]].
  - exact (proj1 (get_routes_by_key_shape sample_float_of_string sample
                    "number_key" false)).
  - exact (proj1 (proj2 (get_routes_by_key_shape sample_float_of_string sample
                           "header_one.number_key" false)) eq_refl).
  - exact (proj1 (proj2 (proj2 (get_routes_by_key_shape sample_float_of_string
                                  sample "calendar" false)) eq_refl)).
  - exact (proj2 (proj2 (proj2 (get_routes_by_key_shape sample_float_of_string
                                  sample "absent" false)) eq_refl)
             _ eq_refl eq_refl).
Defined.

(** C8 on the sample: the text "0" under "header_one.string_key". *)
Lemma get_parse_types_coerces_witness :
  lookup sample_content "header_one.string_key" false = Ok (VStr "0")
  /\ get sample_float_of_string sample "header_one.string_key" false false
     = Ok (VStr "0")
  /\ get sample_float_of_string sample "header_one.string_key" true false
     = Ok (VInt 0).
Proof.
  split; [reflexivity|].
  destruct (get_parse_types_coerces sample_float_of_string sample
              "header_one.string_key" false (VStr "0") eq_refl)
    as (Hraw & Hcoerced & _).
  split; [exact Hraw | exact Hcoerced].
Defined.


(** C3 as stated, on the sample: "servers" resolves to a sequence, which
    is a container, and the assignment under "x" raises. *)
Lemma set_sequence_parent_counterexample :
  (contains_char "." "servers.x" = true
   /\ split_on_dot "servers.x" = Ok ["servers"; "x"]
   /\ descend sample_content ["servers"] = Ok (VList [VInt 1; VInt 2])
   /\ is_container (VList [VInt 1; VInt 2]) = true
   /\ set "servers.x" (VInt 1) false sample
      = (Raise (TypeError "list indices must be integers or slices, not str"),
         sample))
  /\ ~ (forall (self : TomlParser) (key : string) (v : value)
               (pre : list string) (last : string) (node : value),
           contains_char "." key = true ->
           split_on_dot key = Ok (pre ++ [last])%list ->
           descend (parsed_content self) pre = Ok node ->
           is_container node = true ->
           exists self', set key v false self = (Ok true, self')).
Proof.
  split; [repeat split|].
  intros Hclaim.
  destruct (Hclaim sample "servers.x" (VInt 1) ["servers"] "x"
              (VList [VInt 1; VInt 2]) eq_refl eq_refl eq_refl eq_refl)
    as [self' Hrun].
  vm_compute in Hrun. discriminate.
Qed.

(** C3 on the sample: a new key under the mapping "header_one", and a
    path through the key "new" that mapping lacks. *)
Lemma set_assigns_at_last_segment_witness :
  (exists self',
      set "header_one.new" (VInt 1) false sample = (Ok true, self')
      /\ get sample_float_of_string self' "header_one.new" false false
         = Ok (VInt 1))
  /\ set "header_one.new.x" (VInt 1) false sample = (Raise (KeyError "new"), sample).
Proof.
  destruct (set_assigns_at_last_segment sample_float_of_string sample
              "header_one.new" (VInt 1) eq_refl) as [Hassign _].
  destruct (set_assigns_at_last_segment sample_float_of_string sample
              "header_one.new.x" (VInt 1) eq_refl) as [_ Habsent].
  split.
  - destruct (Hassign ["header_one"] "new"
                [("number_key", VInt 5); ("string_key", VStr "0")]
                eq_refl eq_refl) as (self' & Hrun & _ & _ & _ & Hget).
    exists self'. split; [exact Hrun | exact Hget].
  - apply (Habsent ["header_one"] "new" ["x"]
             [("number_key", VInt 5); ("string_key", VStr "0")]);
      [reflexivity | discriminate | reflexivity | reflexivity].
Defined.

(** C4 as stated, on the sample: the path "calendar.x" does not exist,
    since "calendar" is the integer 5, and [delete] fails with a
    [TypeError], which is not a not-found error. *)
Lemma delete_scalar_parent_counterexample :
  (key_path "calendar.x" = Ok ["calendar"; "x"]
   /\ descend sample_content ["calendar"; "x"]
      = Raise (TypeError "'int' object is not subscriptable")
   /\ delete "calendar.x" false sample
      = (Raise (TypeError "'int' object doesn't support item deletion"), sample))
  /\ ~ (forall (self : TomlParser) (key : string) (segments : list string),
           key_path key = Ok segments ->
           (forall x, descend (parsed_content self) segments <> Ok x) ->
           exists e self',
             delete key false self = (Raise e, self')
             /\ is_not_found e = true).
Proof.
  split; [repeat split|].
  intros Hclaim.
  destruct (Hclaim sample "calendar.x" ["calendar"; "x"] eq_refl)
    as (e & self' & Hrun & Hfound).
  - intros x Hx. vm_compute in Hx. discriminate.
  - vm_compute in Hrun. injection Hrun as <- _. discriminate.
Qed.

(** C4 on the sample: an entry that is there, a key its mapping lacks, and
    a path through a scalar. *)
Lemma delete_removes_entry_or_fails_witness :
  (exists self',
      delete "header_one.number_key" false sample = (Ok true, self')
      /\ delete "header_one.number_key" false self'
         = (Raise (KeyError "number_key"), self'))
  /\ delete "header_one.nope" false sample = (Raise (KeyError "nope"), sample)
  /\ exists msg, delete "calendar.x" false sample = (Raise (TypeError msg), sample).
Proof.
  split; [|split].
  - destruct (proj1 (delete_removes_entry_or_fails sample_float_of_string sample
                       "header_one.number_key")
                ["header_one"] "number_key" (VInt 5) eq_refl eq_refl)
      as (d & self' & _ & Hrun & _ & _ & _ & _ & Hagain).
    exists self'. split; [exact Hrun | exact Hagain].
  - destruct (proj2 (delete_removes_entry_or_fails sample_float_of_string sample
                       "header_one.nope")
                ["header_one"; "nope"] (KeyError "nope") eq_refl eq_refl)
      as (e' & Hrun & ->).
    exact Hrun.
  - destruct (proj2 (delete_removes_entry_or_fails sample_float_of_string sample
                       "calendar.x")
                ["calendar"; "x"] (TypeError "'int' object is not subscriptable")
                eq_refl eq_refl)
      as (e' & Hrun & msg & ->).
    exists msg. exact Hrun.
Defined.

(** C10 on the sample: [set] fails on the absent "new" and [delete] on
    the scalar "calendar", both before the last segment. *)
Lemma set_delete_failure_leaves_tree_witness :
  set "header_one.new.x" (VInt 1) false sample = (Raise (KeyError "new"), sample)
  /\ delete "header_one.new.x" false sample = (Raise (KeyError "new"), sample).
Proof.
  destruct (set_delete_failure_leaves_tree sample "header_one.new.x" (VInt 1)
              eq_refl) as (_ & _ & _ & Hpartway).
  apply (Hpartway ["header_one"] "new" ["x"]
           (VDict [("number_key", VInt 5); ("string_key", VStr "0")])
           (KeyError "new"));
    [reflexivity | discriminate | reflexivity | reflexivity].
Defined.

(** ** The further properties at work on the sample document *)

(** X1 on the sample: the plain key "calendar" set to the text "7". *)
Lemma set_then_get_returns_value_witness :
  let self' := snd (set "calendar" (VStr "7") false sample) in
  get sample_float_of_string self' "calendar" false false = Ok (VStr "7")
  /\ get sample_float_of_string self' "calendar" true false = Ok (VInt 7).
Proof.
  exact (set_then_get_returns_value sample_float_of_string sample
           "calendar" (VStr "7") [] "calendar" _ eq_refl eq_refl).
Defined.

(** X2 on the sample: "header_one.number_key" set to 1 and then to 2. *)
Lemma set_last_write_wins_witness :
  set "header_one.number_key" (VInt 2) false
    (snd (set "header_one.number_key" (VInt 1) false sample))
  = set "header_one.number_key" (VInt 2) false sample.
Proof.
  apply (set_last_write_wins sample "header_one.number_key" (VInt 1) (VInt 2)).
  reflexivity.
Defined.

(** X3 on the sample: "header_one.new" is not there, is set, and is
    deleted again. *)
Lemma set_then_delete_restores_witness :
  delete "header_one.new" false
    (snd (set "header_one.new" (VInt 1) false sample))
  = (Ok true, sample).
Proof.
  apply (set_then_delete_restores sample "header_one.new" (VInt 1) _
           (KeyError "new") sample);
    reflexivity.
Defined.

(** X4 on the sample: "servers" is a list. *)
Lemma get_sequence_node_parsing_error_witness :
  get sample_float_of_string sample "servers.blah" false false
  = Raise (ParsingError (Message
      "Cannot get blah because blah is not subscriptable.")).
Proof.
  apply (get_sequence_node_parsing_error sample_float_of_string sample
           "servers.blah" false ["servers"] "blah" [] [VInt 1; VInt 2]);
    reflexivity.
Defined.

(** X5 on the sample: the parent "servers" is a list, the parent
    "absent" is not there. *)
Lemma set_outcome_by_parent_witness :
  (exists msg,
      set "servers.x" (VInt 1) false sample = (Raise (TypeError msg), sample))
  /\ set "absent.x" (VInt 1) false sample = (Raise (KeyError "absent"), sample).
Proof.
  split.
  - exact (set_outcome_by_parent sample "servers.x" (VInt 1)
             ["servers"] "x" eq_refl).
  - exact (set_outcome_by_parent sample "absent.x" (VInt 1)
             ["absent"] "x" eq_refl).
Defined.

(** X7 on the sample: the scalar "calendar" on the path. *)
Lemma get_dotted_never_type_error_witness :
  let e := ParsingError (Message
             "Cannot get missing because missing is not subscriptable.") in
  get sample_float_of_string sample "calendar.missing" false false = Raise e
  /\ ((exists k, e = KeyError k)
      \/ (exists text, e = ParsingError (Message text))).
Proof.
  split; [reflexivity|].
  apply (proj2 (get_dotted_never_type_error sample_float_of_string sample
                  "calendar.missing" false ["calendar"; "missing"]
                  eq_refl eq_refl)).
  reflexivity.
Defined.

(** X8 on the sample: "header_one.number_key". *)
Lemma get_finds_what_subscription_finds_witness :
  get sample_float_of_string sample "header_one.number_key" false false
  = Ok (VInt 5).
Proof.
  apply (proj2 (get_finds_what_subscription_finds sample_float_of_string sample
                  "header_one.number_key" ["header_one"; "number_key"]
                  (VInt 5) eq_refl)).
  reflexivity.
Defined.

(** X9 on the sample: what [set] raises under the scalar "calendar". *)
Lemma set_delete_raise_key_or_type_error_witness :
  set "calendar.x" (VInt 1) false sample
  = (Raise (TypeError "'int' object does not support item assignment"), sample)
  /\ ((exists k, TypeError "'int' object does not support item assignment"
                 = KeyError k)
      \/ (exists msg, TypeError "'int' object does not support item assignment"
                      = TypeError msg)).
Proof.
  split; [reflexivity|].
  apply (proj1 (set_delete_raise_key_or_type_error sample "calendar.x" (VInt 1)
                  ["calendar"; "x"] _ sample eq_refl)).
  reflexivity.
Defined.
